(** * Verification of the hpc-labbook AiiDA core (cse_labbook.aiida)

    Shallow embedding of
    - [data.py]: the [TargetDir] staging tree, [create_triplets],
      [create_dirs] and [iter_future_links];
    - [future.py]: the polling loop [wait_for_submitted];
    - [graph.py]: the [GraphWorkchain] (networkx [DiGraph] construction,
      [topological_generations], [is_directed_acyclic_graph], and the
      outline [start], [not_reached_end], [submit_front], [finalize]). *)

From Stdlib Require Import String Relation_Operators.
From stdpp Require Import base gmap list strings.

Set Warnings "-register-all".

Open Scope Z_scope.

(* ================================================================= *)
(** ** pathlib paths *)

(** A [pathlib.PurePosixPath]: absolute or relative, and its parts. *)
Record PurePath := mkPath { p_absolute : bool; p_parts : list string }.

(** [Path()] *)
Definition path_empty : PurePath := mkPath false [].

(** [p / q]: an absolute right operand replaces the left one. *)
Definition path_div (p q : PurePath) : PurePath :=
  if p_absolute q then q else mkPath (p_absolute p) (p_parts p ++ p_parts q).

(** [p / "name"] for a single path component. *)
Definition path_div_str (p : PurePath) (s : string) : PurePath :=
  path_div p (mkPath false [s]).

(** ["/".join(parts)] *)
Definition join_slash (segs : list string) : string := String.concat "/" segs.

(** [str(p)]; the empty relative path prints as ["."]. *)
Definition path_str (p : PurePath) : string :=
  if p_absolute p then String.append "/" (join_slash (p_parts p))
  else match p_parts p with [] => "." | _ => join_slash (p_parts p) end.

(** [p.name]: the last part, or [""]. *)
Definition path_name (p : PurePath) : string := default "" (last (p_parts p)).

(* ================================================================= *)
(** ** Data classes of [data.py] *)

Module UploadFile.
Record t := mk { source : PurePath; input_label : string; tgt_name : string }.
End UploadFile.

Module RemotePath.
Record t := mk { src_path : PurePath; tgt_name : string; copy : bool }.
End RemotePath.

Module FuturePath.
Record t := mk { src_relpath : PurePath; input_label : string; tgt_name : string }.
End FuturePath.

Module Future.
Record t := mk { jobid : string; uuid : string; workdir : PurePath }.
End Future.

(** [TargetDir]: a node of the staging tree. *)
Inductive TargetDir := mkTargetDir {
  name : string;
  subdirs : list TargetDir;
  upload : list UploadFile.t;
  remote : list RemotePath.t;
  from_future : list FuturePath.t }.

Module UploadTriplet.
Record t := mk { uuid : string; src_name : string; tgt_path : string }.
End UploadTriplet.

Module RemoteTriplet.
Record t := mk { uuid : string; src_path : string; tgt_path : string }.
End RemoteTriplet.

(** Induction over staging trees, with a hypothesis for every subtree. *)
Section TargetDir_induction.
Variable P : TargetDir -> Prop.
Hypothesis Hnode : forall nm sds ups rms ffs,
  Forall P sds -> P (mkTargetDir nm sds ups rms ffs).

Fixpoint TargetDir_ind' (t : TargetDir) : P t :=
  match t with
  | mkTargetDir nm sds ups rms ffs =>
      Hnode nm sds ups rms ffs
        ((fix go (l : list TargetDir) : Forall P l :=
            match l with
            | [] => List.Forall_nil P
            | d :: l' => List.Forall_cons P d l' (TargetDir_ind' d) (go l')
            end) sds)
  end.
End TargetDir_induction.

(* ================================================================= *)
(** ** The shared [path] list of [create_triplets] and [create_dirs]

    Both functions take [path: list[str] | None] and start with
    [path = path or []]: an empty (or missing) list is replaced by a
    fresh one, a non-empty list is the caller's own object.  They then
    [path.append(target_dir.name)] and hand the same object to every
    subdirectory call, so the appends of a callee stay visible to its
    caller.  The embedding threads the content of that object: each
    call returns what the caller's list holds afterwards. *)

(** What the caller's list object holds after the callee is done with
    it: an empty list was not shared (the callee used a fresh one). *)
Definition shared_out (path_in path_final : list string) : list string :=
  match path_in with [] => [] | _ :: _ => path_final end.

(** [if not is_root: path.append(target_dir.name)] *)
Definition enter (path : list string) (is_root : bool) (nm : string) : list string :=
  if is_root then path else path ++ [nm].

(* ================================================================= *)
(** ** [create_triplets] *)

Section Triplets.
(** [calcjob.inputs.uploaded]: input label -> uuid of the uploaded node. *)
Variable uploaded : gmap string string.
(** [calcjob.inputs.code.computer.uuid] *)
Variable computer_uuid : string.

(** The upload comprehension; [uploaded.get(label)] is [None] for a
    missing label, and [None.uuid] raises (result [None]). *)
Fixpoint upload_triplets (path : list string) (ups : list UploadFile.t)
    : option (list UploadTriplet.t) :=
  match ups with
  | [] => Some []
  | file :: rest =>
      match uploaded !! UploadFile.input_label file with
      | None => None
      | Some u =>
          match upload_triplets path rest with
          | None => None
          | Some r =>
              Some (UploadTriplet.mk u (path_name (UploadFile.source file))
                      (join_slash (path ++ [UploadFile.tgt_name file])) :: r)
          end
      end
  end.

(** [remote_triplets]: pairs [(file.copy, RemoteTriplet(...))]. *)
Definition remote_triplets (path : list string) (rms : list RemotePath.t)
    : list (bool * RemoteTriplet.t) :=
  map (fun file => (RemotePath.copy file,
         RemoteTriplet.mk computer_uuid (path_str (RemotePath.src_path file))
           (join_slash (path ++ [RemotePath.tgt_name file])))) rms.

Definition Triplets : Type :=
  (list UploadTriplet.t * list RemoteTriplet.t * list RemoteTriplet.t)%type.

(** [create_triplets(target_dir, calcjob, path, is_root)]; the last
    component is the caller's [path] object afterwards. *)
Fixpoint create_triplets (t : TargetDir) (path : list string) (is_root : bool)
    {struct t} : option (Triplets * list string) :=
  match t with
  | mkTargetDir nm sds ups rms _ =>
      let p := enter path is_root nm in
      (* for subdir in target_dir.subdirs: ... .extend(...) *)
      let fix go (ds : list TargetDir) (p : list string) (acc : Triplets)
          : option (Triplets * list string) :=
        match ds with
        | [] => Some (acc, p)
        | d :: ds' =>
            match create_triplets d p false with
            | None => None
            | Some ((lc, rc, rl), p') =>
                let '(alc, arc, arl) := acc in
                go ds' p' (alc ++ lc, arc ++ rc, arl ++ rl)
            end
        end in
      match go sds p ([], [], []) with
      | None => None
      | Some ((lc, rc, rl), p) =>
          match upload_triplets p ups with
          | None => None
          | Some ups' =>
              let rts := remote_triplets p rms in
              Some ((lc ++ ups',
                     rc ++ map snd (filter (fun i => fst i = true) rts),
                     rl ++ map snd (filter (fun i => fst i = false) rts)),
                    shared_out path p)
          end
      end
  end.

(** The top-level call [create_triplets(target_dir=..., calcjob=self)]. *)
Definition create_triplets_top (t : TargetDir) : option Triplets :=
  fst <$> create_triplets t [] true.
End Triplets.

(* ================================================================= *)
(** ** [create_dirs]

    [folder.get_subfolder(rel, create=True)] creates the directory
    [folder.abspath + "/" + rel]; folders are represented by their path
    below the staging folder, as a list of components.  The result lists
    the created folders in creation order. *)

Fixpoint create_dirs (t : TargetDir) (folder : list string) (path : list string)
    (is_root : bool) {struct t} : list (list string) * list string :=
  match t with
  | mkTargetDir nm sds _ _ _ =>
      let p := enter path is_root nm in
      let fix go (ds : list TargetDir) (p : list string)
          : list (list string) * list string :=
        match ds with
        | [] => ([], p)
        | d :: ds' =>
            (* subfolder = folder.get_subfolder("/".join([*path, subdir.name])) *)
            let sub := folder ++ (p ++ [name d]) in
            let '(cr, p') := create_dirs d sub p false in
            let '(cr', p'') := go ds' p' in
            (sub :: cr ++ cr', p'')
        end in
      let '(cr, pf) := go sds p in (cr, shared_out path pf)
  end.

(** [create_dirs(target_dir=..., folder=folder)] from
    [GenericCalculation.prepare_for_submission]: created paths, below
    the staging folder, rendered with ["/"]. *)
Definition create_dirs_top (t : TargetDir) : list string :=
  map join_slash (fst (create_dirs t [] [] true)).

(** Reference reading of the spec (4.1): every upload's [targetPath]
    is the ["/"]-joined names of its node's ancestors (root excluded),
    the node's own name, then the target name; listed in the order in
    which [create_triplets] lists them (subtrees first). *)
Fixpoint spec_upload_target_paths (t : TargetDir) (anc : list string) (is_root : bool)
    {struct t} : list string :=
  match t with
  | mkTargetDir nm sds ups _ _ =>
      let p := enter anc is_root nm in
      (fix go (ds : list TargetDir) : list string :=
         match ds with
         | [] => []
         | d :: ds' => spec_upload_target_paths d p false ++ go ds'
         end) sds
      ++ map (fun f => join_slash (p ++ [UploadFile.tgt_name f])) ups
  end.

(** Reference reading of the spec (4.1): one directory per non-root
    node, in preorder, at the ["/"]-joined path of names below the root. *)
Fixpoint spec_dir_paths (t : TargetDir) (anc : list string) (is_root : bool)
    {struct t} : list string :=
  match t with
  | mkTargetDir nm sds _ _ _ =>
      let p := enter anc is_root nm in
      (if is_root then [] else [join_slash p]) ++
      (fix go (ds : list TargetDir) : list string :=
         match ds with
         | [] => []
         | d :: ds' => spec_dir_paths d p false ++ go ds'
         end) sds
  end.

(** Target paths of the local-copy triplets. *)
Definition upload_target_paths (trs : option Triplets) : option (list string) :=
  (fun '(lc, _, _) => map UploadTriplet.tgt_path lc) <$> trs.

(* ================================================================= *)
(** ** [build_uploads]

    [orm.SinglefileData(u.source)] is represented by the source path
    it is made from. *)

Fixpoint build_uploads (t : TargetDir) : gmap string PurePath :=
  match t with
  | mkTargetDir _ sds ups _ _ =>
      (* for subdir in target_dir.subdirs: uploads |= build_uploads(subdir) *)
      let fix go (ds : list TargetDir) (uploads : gmap string PurePath)
          : gmap string PurePath :=
        match ds with
        | [] => uploads
        | d :: ds' => go ds' (build_uploads d ∪ uploads)
        end in
      (* uploads | {u.input_label: ... for u in target_dir.upload} *)
      foldl (fun m u => <[UploadFile.input_label u := UploadFile.source u]> m) ∅ ups
        ∪ go sds ∅
  end.

(** The uploads of a tree in the order [create_triplets] and
    [build_uploads] visit them: the subtrees in order, then the node's
    own. *)
Fixpoint tree_uploads (t : TargetDir) : list UploadFile.t :=
  match t with
  | mkTargetDir _ sds ups _ _ =>
      (fix go (ds : list TargetDir) : list UploadFile.t :=
         match ds with
         | [] => []
         | d :: ds' => tree_uploads d ++ go ds'
         end) sds ++ ups
  end.


(** The deferred links of a tree in preorder: the node's own, then the
    subtrees in order. *)
Fixpoint tree_from_future (t : TargetDir) : list FuturePath.t :=
  match t with
  | mkTargetDir _ sds _ _ ffs =>
      ffs ++
      (fix go (ds : list TargetDir) : list FuturePath.t :=
         match ds with
         | [] => []
         | d :: ds' => tree_from_future d ++ go ds'
         end) sds
  end.

(** The names of the non-root nodes of a tree, in preorder. *)
Fixpoint subdir_names (t : TargetDir) : list string :=
  match t with
  | mkTargetDir _ sds _ _ _ =>
      (fix go (ds : list TargetDir) : list string :=
         match ds with
         | [] => []
         | d :: ds' => name d :: subdir_names d ++ go ds'
         end) sds
  end.


(* ================================================================= *)
(** ** [iter_future_links]

    A generator: it yields shell commands and may end by raising
    [ValueError] for a missing future.  Its run is the list of yielded
    values with how it ended. *)

Inductive GenEnd := Exhausted | Raised (label : string).

Definition Run : Type := (list string * GenEnd)%type.

(** [yield from] / sequencing: the second part runs only if the first
    one was exhausted. *)
Definition run_then (r : Run) (k : Run) : Run :=
  match snd r with
  | Exhausted => (fst r ++ fst k, snd k)
  | Raised _ => r
  end.

(** [f"ln -s {future.obj.workdir / file.src_relpath} {path / file.tgt_name}"] *)
Definition ln_command (fut : Future.t) (path : PurePath) (file : FuturePath.t) : string :=
  String.append "ln -s "
    (String.append (path_str (path_div (Future.workdir fut) (FuturePath.src_relpath file)))
       (String.append " " (path_str (path_div_str path (FuturePath.tgt_name file))))).

(** ["\n"] *)
Definition newline : string :=
  String.String (Ascii.Ascii false true false true false false false false) EmptyString.

Section FutureLinks.
(** [futures_ns]: input label -> the [Future] held by the port. *)
Variable futures_ns : gmap string Future.t.

(** [for file in target_dir.from_future: ...] *)
Fixpoint link_commands (path : PurePath) (ffs : list FuturePath.t) : Run :=
  match ffs with
  | [] => ([], Exhausted)
  | file :: rest =>
      match futures_ns !! FuturePath.input_label file with
      | Some fut =>
          run_then ([ln_command fut path file], Exhausted) (link_commands path rest)
      | None => ([], Raised (FuturePath.input_label file))
      end
  end.

Fixpoint iter_future_links (t : TargetDir) (path : PurePath) (is_root : bool)
    {struct t} : Run :=
  match t with
  | mkTargetDir nm sds _ _ ffs =>
      let path := if is_root then path else path_div_str path nm in
      let fix go (ds : list TargetDir) : Run :=
        match ds with
        | [] => ([], Exhausted)
        | d :: ds' => run_then (iter_future_links d path false) (go ds')
        end in
      run_then (link_commands path ffs) (go sds)
  end.

(** [data.iter_future_links(workdir, futures)] *)
Definition iter_future_links_top (t : TargetDir) : Run :=
  iter_future_links t path_empty true.

(** The consumer in [AsyncWorkchain.start]:
    [prepend_text = "\n".join(data.iter_future_links(...))]; the
    join consumes the whole generator, so an exception leaves no
    prepend text ([None]). *)
Definition prepend_text (t : TargetDir) : option string :=
  match iter_future_links_top t with
  | (cmds, Exhausted) => Some (String.concat newline cmds)
  | (_, Raised _) => None
  end.
End FutureLinks.

(** The deferred links of a tree in generator order (a node's own
    [from_future] entries, then its subtrees), with the directory path
    each one is linked into. *)
Fixpoint future_links (t : TargetDir) (path : PurePath) (is_root : bool)
    {struct t} : list (PurePath * FuturePath.t) :=
  match t with
  | mkTargetDir nm sds _ _ ffs =>
      let path := if is_root then path else path_div_str path nm in
      map (pair path) ffs ++
      (fix go (ds : list TargetDir) : list (PurePath * FuturePath.t) :=
         match ds with
         | [] => []
         | d :: ds' => future_links d path false ++ go ds'
         end) sds
  end.

Definition future_links_top (t : TargetDir) : list (PurePath * FuturePath.t) :=
  future_links t path_empty true.

(** The labels the tree refers to. *)
Definition referenced_labels (t : TargetDir) : list string :=
  map (fun pf => FuturePath.input_label (snd pf)) (future_links_top t).

Section LinkList.
Variable futures_ns : gmap string Future.t.

(** Processing a list of deferred links one after the other. *)
Fixpoint links_run (l : list (PurePath * FuturePath.t)) : Run :=
  match l with
  | [] => ([], Exhausted)
  | (path, file) :: l' =>
      match futures_ns !! FuturePath.input_label file with
      | Some fut => run_then ([ln_command fut path file], Exhausted) (links_run l')
      | None => ([], Raised (FuturePath.input_label file))
      end
  end.

(** The command of one deferred link, when its future is present. *)
Definition link_command (pf : PurePath * FuturePath.t) : option string :=
  (fun fut => ln_command fut (fst pf) (snd pf))
    <$> futures_ns !! FuturePath.input_label (snd pf).
End LinkList.

(* ================================================================= *)
(** ** networkx: [nx.DiGraph(graph.edges)]

    A [DiGraph] keeps its nodes in insertion order and, per node, the
    successor and predecessor dicts ([_succ], [_pred]) whose keys are
    again in insertion order; an edge added twice is stored once.  Each
    entry of [graph.edges] is a two-element list [[u, v]], modelled as
    a pair. *)

Record DiGraph := mkDiGraph {
  g_node : list Z;
  g_succ : gmap Z (list Z);
  g_pred : gmap Z (list Z) }.

(** Adding key [x] to a dict whose keys are [l] (insertion order). *)
Definition dict_add_key (l : list Z) (x : Z) : list Z :=
  if decide (x ∈ l) then l else l ++ [x].

(** The [if u not in self._succ: ...] part of [add_edge]. *)
Definition add_node_if_absent (G : DiGraph) (u : Z) : DiGraph :=
  if decide (u ∈ g_node G) then G
  else mkDiGraph (g_node G ++ [u]) (<[u := []]> (g_succ G)) (<[u := []]> (g_pred G)).

(** [G.add_edge(u, v)]: [_succ[u][v] = data; _pred[v][u] = data]. *)
Definition add_edge (G : DiGraph) (u v : Z) : DiGraph :=
  let G := add_node_if_absent (add_node_if_absent G u) v in
  mkDiGraph (g_node G)
    (<[u := dict_add_key (default [] (g_succ G !! u)) v]> (g_succ G))
    (<[v := dict_add_key (default [] (g_pred G !! v)) u]> (g_pred G)).

(** [G.add_edges_from(ebunch)] *)
Fixpoint add_edges_from (G : DiGraph) (es : list (Z * Z)) : DiGraph :=
  match es with
  | [] => G
  | (u, v) :: es' => add_edges_from (add_edge G u v) es'
  end.

(** [nx.DiGraph(edges)] *)
Definition DiGraph_of (es : list (Z * Z)) : DiGraph :=
  add_edges_from (mkDiGraph [] ∅ ∅) es.

(** [G.neighbors(n)] (successors) and [G.predecessors(n)]; both are
    only called on nodes of [G]. *)
Definition neighbors (G : DiGraph) (n : Z) : list Z := default [] (g_succ G !! n).
Definition predecessors (G : DiGraph) (n : Z) : list Z := default [] (g_pred G !! n).

(** [G.in_degree(v)] = [len(G._pred[v])] *)
Definition in_degree (G : DiGraph) (v : Z) : nat := length (predecessors G v).

(* ================================================================= *)
(** ** [nx.topological_generations(G)] (Kahn's layering)

<<
    indegree_map = {v: d for v, d in G.in_degree() if d > 0}
    zero_indegree = [v for v, d in G.in_degree() if d == 0]
    while zero_indegree:
        this_generation = zero_indegree
        zero_indegree = []
        for node in this_generation:
            if node not in G: raise RuntimeError(...)
            for child in G.neighbors(node):
                try: indegree_map[child] -= 1
                except KeyError: raise RuntimeError(...)
                if indegree_map[child] == 0:
                    zero_indegree.append(child)
                    del indegree_map[child]
        yield this_generation
    if indegree_map: raise nx.NetworkXUnfeasible(...)
>>
    [None] stands for the [RuntimeError]. *)

(** [for child in G.neighbors(node): ...] *)
Fixpoint decrement_children (m : gmap Z Z) (zero : list Z) (cs : list Z)
    : option (gmap Z Z * list Z) :=
  match cs with
  | [] => Some (m, zero)
  | c :: cs' =>
      match m !! c with
      | None => None
      | Some d =>
          if decide (d - 1 = 0) then decrement_children (delete c m) (zero ++ [c]) cs'
          else decrement_children (<[c := d - 1]> m) zero cs'
      end
  end.

(** [for node in this_generation: ...] *)
Fixpoint process_generation (G : DiGraph) (m : gmap Z Z) (zero : list Z)
    (this : list Z) : option (gmap Z Z * list Z) :=
  match this with
  | [] => Some (m, zero)
  | n :: rest =>
      if decide (n ∈ g_node G) then
        match decrement_children m zero (neighbors G n) with
        | None => None
        | Some (m', zero') => process_generation G m' zero' rest
        end
      else None
  end.

(** How the generator ends when consumed by [list(...)]:
    all generations, [NetworkXUnfeasible], or [RuntimeError].
    [OutOfFuel] bounds the [while] loop; it is never reached. *)
Inductive TopoResult :=
  | Generations (gens : list (list Z))
  | Unfeasible
  | GraphChanged
  | OutOfFuel.

Definition cons_generation (g : list Z) (r : TopoResult) : TopoResult :=
  match r with Generations gs => Generations (g :: gs) | r => r end.

(** The [while zero_indegree] loop; each round takes one unit of fuel. *)
Fixpoint generations_loop (G : DiGraph) (fuel : nat) (m : gmap Z Z) (zero : list Z)
    : TopoResult :=
  match zero with
  | [] => if decide (m = ∅) then Generations [] else Unfeasible
  | _ :: _ =>
      match fuel with
      | O => OutOfFuel
      | S f =>
          match process_generation G m [] zero with
          | None => GraphChanged
          | Some (m', zero') => cons_generation zero (generations_loop G f m' zero')
          end
      end
  end.

Definition initial_indegree_map (G : DiGraph) : gmap Z Z :=
  list_to_map (map (fun v => (v, Z.of_nat (in_degree G v)))
                 (filter (fun v => (0 < in_degree G v)%nat) (g_node G))).

Definition initial_zero (G : DiGraph) : list Z :=
  filter (fun v => in_degree G v = 0%nat) (g_node G).

Definition topological_generations (G : DiGraph) : TopoResult :=
  generations_loop G (length (g_node G)) (initial_indegree_map G) (initial_zero G).

(** [nx.is_directed_acyclic_graph(G)] = [not has_cycle(G)], where
    [has_cycle] consumes [topological_sort(G)] (the flattened
    generations) and catches [NetworkXUnfeasible] only; [None] is an
    exception that propagates. *)
Definition is_directed_acyclic_graph (G : DiGraph) : option bool :=
  match topological_generations G with
  | Generations _ => Some true
  | Unfeasible => Some false
  | _ => None
  end.

(* ================================================================= *)
(** ** [future.wait_for_submitted]

<<
    submitted = orm.load_node(uuid=uuid)
    time_waited = 0
    while submitted.get_job_id() is None or submitted.get_remote_workdir() is None:
        if time_waited >= timeout: raise SubmittingTimedOutError(time_s=time_waited)
        await asyncio.sleep(poll_interval)
        time_waited += poll_interval
        match submitted.process_state:
            case EXCEPTED: raise NotSubmittedError
            case KILLED: raise KilledBeforeSubmittedError
            case _: pass
        submitted = orm.load_node(uuid=uuid)
>>
    The job is observed through arbitrary functions: what the node
    loaded before the [k]-th check reports ([has_job_id k],
    [has_workdir k]), and the [process_state] read after the [k]-th
    sleep ([process_state_after k], [k >= 1]). *)

Module ProcessState.
Inductive t := CREATED | WAITING | RUNNING | FINISHED | EXCEPTED | KILLED.
End ProcessState.

Inductive WaitOutcome :=
  | Submitted                   (** the function returns normally *)
  | TimedOut (time_s : Z)       (** [SubmittingTimedOutError] *)
  | NotSubmitted                (** [NotSubmittedError] *)
  | KilledBeforeSubmitted       (** [KilledBeforeSubmittedError] *)
  | WaitOutOfFuel.              (** bound on the loop, unreachable for [poll_interval >= 1] *)

Section Polling.
Variable poll_interval timeout : Z.
Variable has_job_id has_workdir : nat -> bool.
Variable process_state_after : nat -> ProcessState.t.

(** [submitted.get_job_id() is not None and submitted.get_remote_workdir() is not None] *)
Definition is_ready (k : nat) : bool := has_job_id k && has_workdir k.

(** The loop after [k] sleeps; the result carries the number of sleeps. *)
Fixpoint wait_loop (fuel : nat) (k : nat) (time_waited : Z) : WaitOutcome * nat :=
  if is_ready k then (Submitted, k)
  else if decide (timeout <= time_waited) then (TimedOut time_waited, k)
  else
    match fuel with
    | O => (WaitOutOfFuel, k)
    | S f =>
        match process_state_after (S k) with
        | ProcessState.EXCEPTED => (NotSubmitted, S k)
        | ProcessState.KILLED => (KilledBeforeSubmitted, S k)
        | _ => wait_loop f (S k) (time_waited + poll_interval)
        end
    end.

Definition wait_for_submitted : WaitOutcome * nat :=
  wait_loop (Z.to_nat timeout) 0 0.

(** Description of a run of the loop from check [k0] on that ends
    after [k] sleeps: every check in [k0 .. k-1] found the job not
    ready and the time waited below the timeout, no state read after
    the sleeps [k0+1 .. k] (resp. [k-1] for the two kill exits) was
    fatal, and the last step is one of the four exits. *)
Definition fatal (s : ProcessState.t) : Prop :=
  s = ProcessState.EXCEPTED \/ s = ProcessState.KILLED.

Definition wait_outcome_spec (k0 : nat) (r : WaitOutcome * nat) : Prop :=
  let '(o, k) := r in
  (k0 <= k)%nat /\
  (forall j, (k0 <= j < k)%nat -> is_ready j = false /\ Z.of_nat j * poll_interval < timeout) /\
  match o with
  | Submitted =>
      (forall j, (k0 < j <= k)%nat -> ~ fatal (process_state_after j)) /\ is_ready k = true
  | TimedOut t =>
      (forall j, (k0 < j <= k)%nat -> ~ fatal (process_state_after j)) /\
      is_ready k = false /\ t = Z.of_nat k * poll_interval /\ timeout <= t
  | NotSubmitted =>
      (k0 < k)%nat /\ (forall j, (k0 < j < k)%nat -> ~ fatal (process_state_after j)) /\
      process_state_after k = ProcessState.EXCEPTED
  | KilledBeforeSubmitted =>
      (k0 < k)%nat /\ (forall j, (k0 < j < k)%nat -> ~ fatal (process_state_after j)) /\
      process_state_after k = ProcessState.KILLED
  | WaitOutOfFuel => False
  end.
End Polling.

(* ================================================================= *)
(** ** [graph.GraphWorkchain]

    [spec.outline(start, while_(not_reached_end)(submit_front), finalize)]
    with exit codes [NOT_A_DAG] (500) and [JOB_FAILED] (501).  A step
    that raises leaves the workchain [Excepted].  [self.submit] and
    [to_context] make the next step wait until the submitted
    [AsyncWorkchain]s have terminated; the engine is observed through
    [async_ok n] (the [is_finished_ok] of node [n]'s [AsyncWorkchain],
    which is also whether it has a [future] output) and [job_state n]
    (the terminal state of node [n]'s underlying calculation job). *)

Record Job := mkJob { workdir : TargetDir }.

Record Graph := mkGraph { nodes : list Job; edges : list (Z * Z) }.

Inductive ExitStatus := FINISHED_OK | NOT_A_DAG | JOB_FAILED | EXCEPTED.

Inductive JobOutcome := JobFinishedOk | JobFinishedFailed | JobExcepted | JobKilled.

Record RunResult := mkRunResult {
  submitted : list Z;                 (** nodes in [ctx.node_async], in submission order *)
  all_jobs : list (Z * JobOutcome);    (** [ctx.all]: the waited-for jobs *)
  exit_status : ExitStatus }.

(** [graph.nodes[node_idx]] does not raise [IndexError]. *)
Definition py_index_ok (len : nat) (i : Z) : bool :=
  bool_decide (- Z.of_nat len <= i < Z.of_nat len).

Section Workchain.
Variable async_ok : Z -> bool.
Variable job_state : Z -> JobOutcome.
(** [builds_ok n]: preparing and submitting node [n]'s [AsyncWorkchain]
    does not raise, i.e. the [node] input namespace holds the key
    [f"n{n}__code"] ([KeyError] otherwise), [orm.load_code] loads it, the
    [SinglefileData] of [data.build_uploads(node.workdir)] can be made
    and [self.submit(builder)] accepts the builder. *)
Variable builds_ok : Z -> bool.

(** [for dependency in dependencies.values(): if not dependency.is_finished_ok: ...]
    over the predecessors in order.  A predecessor submitted in the
    same step is still the [Awaitable] that [to_context] stored, and
    reading [is_finished_ok] on it raises [AttributeError]. *)
Fixpoint check_deps (deps : list Z) (this_step : list Z) : option ExitStatus :=
  match deps with
  | [] => None
  | d :: ds =>
      if bool_decide (d ∈ this_step) then Some EXCEPTED
      else if async_ok d then check_deps ds this_step else Some JOB_FAILED
  end.

(** [submit_front] for one generation: [node_async] lists the nodes
    submitted in earlier steps, [this_step] those submitted so far in
    this one.  Returns [this_step] at the end of the step and the exit
    code the step returned, if any. *)
Fixpoint submit_front (dag : DiGraph) (g : Graph) (gen : list Z)
    (node_async this_step : list Z) : list Z * option ExitStatus :=
  match gen with
  | [] => (this_step, None)
  | node_idx :: rest =>
      let deps := predecessors dag node_idx in
      (* dependencies = {d: self.ctx.node_async[str(d)] for d in ...} *)
      if negb (forallb (fun d => bool_decide (d ∈ node_async ++ this_step)) deps)
      then (this_step, Some EXCEPTED)
      else match check_deps deps this_step with
      | Some e => (this_step, Some e)
      | None =>
          (* node = graph.nodes[node_idx] *)
          if negb (py_index_ok (length (nodes g)) node_idx)
          then (this_step, Some EXCEPTED)
          (* builder.calc.code = orm.load_code(self.inputs.node[f"n{node_idx}__code"]),
             builder.calc.uploaded = data.build_uploads(node.workdir),
             self.submit(builder) *)
          else if negb (builds_ok node_idx)
          then (this_step, Some EXCEPTED)
          (* self.to_context(node_async.<idx> = self.submit(builder)) *)
          else submit_front dag g rest node_async (this_step ++ [node_idx])
      end
  end.

(** [while self.ctx.iteration < len(self.ctx.front): submit_front] *)
Fixpoint submit_generations (dag : DiGraph) (g : Graph) (front : list (list Z))
    (node_async : list Z) : list Z * option ExitStatus :=
  match front with
  | [] => (node_async, None)
  | gen :: rest =>
      match submit_front dag g gen node_async [] with
      | (new, None) => submit_generations dag g rest (node_async ++ new)
      | (new, Some e) => (node_async ++ new, Some e)
      end
  end.

(** [start] followed by the [while] loop. *)
Definition start_and_submit (g : Graph) : list Z * option ExitStatus :=
  let dag := DiGraph_of (edges g) in
  match is_directed_acyclic_graph dag with
  | None => ([], Some EXCEPTED)
  | Some false => ([], Some NOT_A_DAG)
  | Some true =>
      match topological_generations dag with
      | Generations front => submit_generations dag g front []
      | _ => ([], Some EXCEPTED)
      end
  end.

(** The last [not_reached_end]: for every [node_async] (in insertion
    order), [orm.load_node(node_async.outputs.future.obj.uuid)] is
    appended to [ctx.all] and waited for; a workchain without a
    [future] output raises. *)
Fixpoint wait_all (node_async : list Z) : option (list (Z * JobOutcome)) :=
  match node_async with
  | [] => Some []
  | n :: rest =>
      if async_ok n then (fun l => (n, job_state n) :: l) <$> wait_all rest else None
  end.

(** [not_reached_end] (last call) and [finalize], which only reports. *)
Definition wait_and_finalize (node_async : list Z) : list (Z * JobOutcome) * ExitStatus :=
  match node_async with
  | [] => ([], EXCEPTED)   (* self.ctx.node_async was never set *)
  | _ :: _ =>
      match wait_all node_async with
      | None => ([], EXCEPTED)
      | Some all => (all, FINISHED_OK)
      end
  end.

Definition run_graph (g : Graph) : RunResult :=
  match start_and_submit g with
  | (na, Some e) => mkRunResult na [] e
  | (na, None) => let '(all, e) := wait_and_finalize na in mkRunResult na all e
  end.
End Workchain.

(** Edge relation of a [graph.edges] list. *)
Definition edge_rel (es : list (Z * Z)) (u v : Z) : Prop := (u, v) ∈ es.

(** What [nx.DiGraph(es)] stores: its nodes are distinct and are the
    endpoints of the edges, and the successor and predecessor lists of
    every node are duplicate-free and hold exactly the edges of [es]. *)
Definition graph_wf (G : DiGraph) (es : list (Z * Z)) : Prop :=
  NoDup (g_node G) /\
  (forall u v, (u, v) ∈ es -> u ∈ g_node G /\ v ∈ g_node G) /\
  (forall u, u ∈ g_node G -> exists w, (u, w) ∈ es \/ (w, u) ∈ es) /\
  (forall u, u ∉ g_node G -> g_succ G !! u = None /\ g_pred G !! u = None) /\
  (forall u, NoDup (neighbors G u) /\ forall v, v ∈ neighbors G u <-> (u, v) ∈ es) /\
  (forall v, NoDup (predecessors G v) /\ forall u, u ∈ predecessors G v <-> (u, v) ∈ es).

(** A node order in which every node comes after all its
    predecessors; stated on the reversed order, newest node first. *)
Fixpoint topo_ok_rev (es : list (Z * Z)) (l : list Z) : Prop :=
  match l with
  | [] => True
  | x :: l' => (forall u, (u, x) ∈ es -> u ∈ l') /\ topo_ok_rev es l'
  end.

Definition topo_ok (es : list (Z * Z)) (P : list Z) : Prop := topo_ok_rev es (reverse P).

(** Number of predecessors of [v] not yet in the processed prefix [P]. *)
Definition cnt (G : DiGraph) (P : list Z) (v : Z) : nat :=
  length (filter (fun u => u ∉ P) (predecessors G v)).

(** State of the [while] loop of [topological_generations]: [P] holds
    the nodes yielded or being processed, [pending] the nodes whose
    in-degree has dropped to zero and that wait for processing, and [m]
    is [indegree_map]. *)
Definition kahn_inv (G : DiGraph) (es : list (Z * Z)) (P pending : list Z) (m : gmap Z Z) : Prop :=
  (forall v k, m !! v = Some k ->
     v ∈ g_node G /\ k = Z.of_nat (cnt G P v) /\ (0 < cnt G P v)%nat) /\
  (forall v, v ∈ g_node G -> m !! v = None -> v ∈ P ++ pending) /\
  (forall v, v ∈ P ++ pending ->
     m !! v = None /\ v ∈ g_node G /\ forall u, (u, v) ∈ es -> u ∈ P) /\
  NoDup (P ++ pending) /\
  topo_ok es P.

(** Every node of a generation has all its predecessors in the earlier
    generations (after the prefix [P]). *)
Fixpoint gens_ok (es : list (Z * Z)) (P : list Z) (gens : list (list Z)) : Prop :=
  match gens with
  | [] => True
  | gen :: gs => (forall v u, v ∈ gen -> (u, v) ∈ es -> u ∈ P) /\ gens_ok es (P ++ gen) gs
  end.

(* ================================================================= *)
(** ** Concrete inputs *)

Definition leaf (n : string) : TargetDir := mkTargetDir n [] [] [] [].

(** [root{a{c, upload x -> "f"}}]: a depth-two tree. *)
Definition tree_depth2 : TargetDir :=
  mkTargetDir "root"
    [mkTargetDir "a" [leaf "c"]
       [UploadFile.mk (mkPath true ["tmp"; "f.txt"]) "x" "f"] [] []]
    [] [] [].

Definition uploaded_x : gmap string string := <["x" := "U1"]> ∅.

(** [root] with two deferred links; only the first one's future exists. *)
Definition tree_two_links : TargetDir :=
  mkTargetDir "root" [] [] []
    [FuturePath.mk (mkPath false ["out.txt"]) "dep_0" "input.txt";
     FuturePath.mk (mkPath false ["out.txt"]) "dep_1" "x"].

Definition futures_dep0 : gmap string Future.t :=
  <["dep_0" := Future.mk "7" "u0" (mkPath true ["scratch"; "w"])]> ∅.

(** Futures for both labels of [tree_two_links]. *)
Definition futures_dep01 : gmap string Future.t :=
  <["dep_1" := Future.mk "8" "u1" (mkPath true ["scratch"; "v"])]> futures_dep0.

Definition job0 : Job := mkJob (leaf "root").

(** Nodes [A, B], edge [(0, 1)]. *)
(** [root{a{upload x -> "f"}, b}, upload x -> "g"]: a depth-one tree. *)
Definition tree_flat : TargetDir :=
  mkTargetDir "root"
    [mkTargetDir "a" [] [UploadFile.mk (mkPath true ["tmp"; "f.txt"]) "x" "f"] [] [];
     leaf "b"]
    [UploadFile.mk (mkPath true ["tmp"; "f.txt"]) "x" "g"] [] [].

Definition graph_AB : Graph := mkGraph [job0; job0] [(0, 1)].

(** Nodes [A, B, C], edge [(0, 1)]: [C] is in no edge. *)
Definition graph_ABC : Graph := mkGraph [job0; job0; job0] [(0, 1)].

(** Nodes [A, B, C], edges [A -> B -> C -> A]. *)
Definition graph_cycle : Graph := mkGraph [job0; job0; job0] [(0, 1); (1, 2); (2, 0)].

(** Job states where [A] (node 0) failed. *)
Definition A_failed (n : Z) : JobOutcome :=
  if decide (n = 0) then JobFinishedFailed else JobFinishedOk.

(* ================================================================= *)
(** * Staging tree compiler *)

(** C1 (code_bug): on the depth-two tree [root{a{c, upload f}}] the
    upload of [a] gets the target path ["a/c/f"] from [create_triplets]
    (the subtree [c] has appended its name to the shared [path] list),
    whereas the ancestor-path rule gives ["a/f"]. *)
Theorem create_triplets_depth2_path :
  upload_target_paths (create_triplets_top uploaded_x "C" tree_depth2) = Some ["a/c/f"] /\
  spec_upload_target_paths tree_depth2 [] true = ["a/f"].
Proof. split; reflexivity. Qed.

(** C7 (code_bug): on [root{a{c}}] [create_dirs] creates ["a"] and
    ["a/a/c"] (the subfolder path is joined below the parent's own
    folder and repeats the parent's name), whereas the spec's rule gives
    ["a"] and ["a/c"]; the number of entries is right. *)
Theorem create_dirs_depth2_paths :
  create_dirs_top tree_depth2 = ["a"; "a/a/c"] /\
  spec_dir_paths tree_depth2 [] true = ["a"; "a/c"].
Proof. split; reflexivity. Qed.

(* ================================================================= *)
(** * Deferred link resolver *)

Lemma run_then_assoc (a b c : Run) :
  run_then (run_then a b) c = run_then a (run_then b c).
Proof.
  destruct a as [la ea], b as [lb eb], c as [lc ec].
  unfold run_then; destruct ea; simpl; [|reflexivity].
  destruct eb; simpl; [|reflexivity].
  by rewrite (assoc_L (++)).
Qed.

Lemma run_then_nil_l (k : Run) : run_then ([], Exhausted) k = k.
Proof. by destruct k. Qed.

Lemma links_run_app (fs : gmap string Future.t) l1 l2 :
  links_run fs (l1 ++ l2) = run_then (links_run fs l1) (links_run fs l2).
Proof.
  induction l1 as [|[p f] l1 IH]; simpl.
  - by rewrite run_then_nil_l.
  - destruct (fs !! FuturePath.input_label f); [|reflexivity].
    by rewrite IH, run_then_assoc.
Qed.

Lemma link_commands_links_run (fs : gmap string Future.t) path ffs :
  link_commands fs path ffs = links_run fs (map (pair path) ffs).
Proof.
  induction ffs as [|f ffs IH]; simpl; [reflexivity|].
  destruct (fs !! FuturePath.input_label f); [by rewrite IH|reflexivity].
Qed.

(** The generator is the sequential processing of the links in
    traversal order. *)
Lemma iter_future_links_flat (fs : gmap string Future.t) (t : TargetDir) :
  forall path is_root,
    iter_future_links fs t path is_root = links_run fs (future_links t path is_root).
Proof.
  induction t as [nm sds ups rms ffs IH] using TargetDir_ind'.
  intros path is_root. simpl.
  rewrite links_run_app, link_commands_links_run. f_equal.
  set (p := if is_root then path else path_div_str path nm). clearbody p.
  induction IH as [|d sds Hd _ IHs]; simpl; [reflexivity|].
  by rewrite links_run_app, Hd, IHs.
Qed.

Lemma links_run_present (fs : gmap string Future.t) (l : list (PurePath * FuturePath.t)) :
  Forall (fun pf => is_Some (fs !! FuturePath.input_label (snd pf))) l ->
  links_run fs l = (omap (link_command fs) l, Exhausted).
Proof.
  induction 1 as [|[p f] l [fut Hfut] _ IH]; simpl in *; [reflexivity|].
  unfold link_command at 1; simpl. rewrite Hfut, IH. reflexivity.
Qed.

Lemma links_run_agree (fs1 fs2 : gmap string Future.t) (l : list (PurePath * FuturePath.t)) :
  (forall pf, pf ∈ l -> fs1 !! FuturePath.input_label (snd pf) = fs2 !! FuturePath.input_label (snd pf)) ->
  links_run fs1 l = links_run fs2 l.
Proof.
  induction l as [|[p f] l IH]; intros Hag; simpl; [reflexivity|].
  pose proof (Hag (p, f) ltac:(left)) as Hpf; simpl in Hpf. rewrite Hpf, IH; [reflexivity|].
  intros pf Hin. apply Hag. by right.
Qed.

Lemma links_run_raised (fs : gmap string Future.t) (l : list (PurePath * FuturePath.t)) lbl :
  snd (links_run fs l) = Raised lbl ->
  lbl ∈ map (fun pf => FuturePath.input_label (snd pf)) l /\ fs !! lbl = None.
Proof.
  induction l as [|[p f] l IH]; simpl; [discriminate|].
  destruct (fs !! FuturePath.input_label f) eqn:Hf.
  - unfold run_then; simpl. intros H. destruct (IH H) as [Hin Hnone].
    split; [by right|done].
  - intros [= <-]. split; [by left|done].
Qed.

(** C3 (counterexample): with links [dep_0 -> input.txt] and
    [dep_1 -> x] at the root and only [dep_0] in the mapping, the
    generator yields the command for [dep_0] before it raises for the
    missing [dep_1]. *)
Lemma iter_future_links_partial_output :
  iter_future_links_top futures_dep0 tree_two_links =
    (["ln -s /scratch/w/out.txt input.txt"], Raised "dep_1").
Proof. reflexivity. Qed.

(** C3 (amended): if, in traversal order, the first deferred link whose
    [futureKey] is absent from the mapping is [file] (preceded by the
    links [pre], whose futures are present), then the generator yields
    exactly the commands of [pre] and then raises for [file]'s key;
    the consumer that joins the generator into the job's prepend text
    produces no text at all. *)
Theorem iter_future_links_missing_future (fs : gmap string Future.t) (t : TargetDir)
    pre path file post :
  future_links_top t = pre ++ (path, file) :: post ->
  Forall (fun pf => is_Some (fs !! FuturePath.input_label (snd pf))) pre ->
  fs !! FuturePath.input_label file = None ->
  iter_future_links_top fs t =
    (omap (link_command fs) pre, Raised (FuturePath.input_label file)) /\
  prepend_text fs t = None.
Proof.
  intros Hl Hpre Hmiss.
  assert (Hrun : iter_future_links_top fs t =
                 (omap (link_command fs) pre, Raised (FuturePath.input_label file))).
  { unfold iter_future_links_top. rewrite iter_future_links_flat.
    fold (future_links_top t). rewrite Hl, links_run_app, links_run_present by done.
    simpl. rewrite Hmiss. unfold run_then; simpl. by rewrite app_nil_r. }
  split; [done|]. unfold prepend_text. by rewrite Hrun.
Qed.

Lemma iter_future_links_missing_future_witness :
  (future_links_top tree_two_links =
    [(path_empty, FuturePath.mk (mkPath false ["out.txt"]) "dep_0" "input.txt")] ++
    (path_empty, FuturePath.mk (mkPath false ["out.txt"]) "dep_1" "x") :: []) /\
  prepend_text futures_dep0 tree_two_links = None.
Proof.
  assert (Hl : future_links_top tree_two_links =
    [(path_empty, FuturePath.mk (mkPath false ["out.txt"]) "dep_0" "input.txt")] ++
    (path_empty, FuturePath.mk (mkPath false ["out.txt"]) "dep_1" "x") :: []) by reflexivity.
  split; [exact Hl|].
  refine (proj2 (iter_future_links_missing_future futures_dep0 tree_two_links _ _ _ _ Hl _ _)).
  - constructor; [eexists; reflexivity | constructor].
  - reflexivity.
Defined.

(** C10: the resolver's output depends only on the mapping entries of
    the labels the tree refers to; when it raises, it is for a referenced
    label that is absent, never because of an unreferenced entry. *)
Theorem iter_future_links_referenced_only (t : TargetDir) (fs1 fs2 : gmap string Future.t)
    (Hagree : forall l, l ∈ referenced_labels t -> fs1 !! l = fs2 !! l) :
  iter_future_links_top fs1 t = iter_future_links_top fs2 t /\
  (forall l, snd (iter_future_links_top fs1 t) = Raised l ->
             l ∈ referenced_labels t /\ fs1 !! l = None).
Proof.
  unfold iter_future_links_top. rewrite !iter_future_links_flat.
  fold (future_links_top t). split.
  - apply links_run_agree. intros pf Hpf. apply Hagree.
    unfold referenced_labels. apply list_elem_of_In, in_map_iff.
    exists pf. split; [done|]. by apply list_elem_of_In.
  - intros l Hl. by apply links_run_raised.
Qed.

Lemma iter_future_links_referenced_only_witness :
  (forall l, l ∈ referenced_labels tree_two_links ->
     futures_dep0 !! l = (<["unused" := Future.mk "9" "u9" (mkPath true ["w9"])]> futures_dep0) !! l) /\
  iter_future_links_top futures_dep0 tree_two_links =
    iter_future_links_top (<["unused" := Future.mk "9" "u9" (mkPath true ["w9"])]> futures_dep0) tree_two_links.
Proof.
  assert (H : forall l, l ∈ referenced_labels tree_two_links ->
     futures_dep0 !! l = (<["unused" := Future.mk "9" "u9" (mkPath true ["w9"])]> futures_dep0) !! l).
  { intros l Hl. apply list_elem_of_In in Hl. simpl in Hl.
    destruct Hl as [<-|[<-|[]]]; reflexivity. }
  split; [exact H|].
  exact (proj1 (iter_future_links_referenced_only tree_two_links _ _ H)).
Defined.

(* ================================================================= *)
(** * Advance-submission polling loop *)

Section PollingProofs.
Variable poll_interval timeout : Z.
Variable has_job_id has_workdir : nat -> bool.
Variable process_state_after : nat -> ProcessState.t.

Local Abbreviation ready := (is_ready has_job_id has_workdir).
Local Abbreviation loop := (wait_loop poll_interval timeout has_job_id has_workdir process_state_after).
Local Abbreviation spec := (wait_outcome_spec poll_interval timeout has_job_id has_workdir process_state_after).

(** The round that neither exits nor runs out: one more sleep. *)
Local Ltac continue_poll :=
  match goal with
  | IH : forall k0, _ -> wait_outcome_spec _ _ _ _ _ k0 _,
    Hs : process_state_after (S ?k0) = _,
    Hnow : _ /\ _ |- _ =>
      replace (Z.of_nat k0 * poll_interval + poll_interval)
        with (Z.of_nat (S k0) * poll_interval) by lia;
      assert (Hnf : ~ fatal (process_state_after (S k0)))
        by (rewrite Hs; unfold fatal; intros [Hf|Hf]; discriminate);
      specialize (IH (S k0) ltac:(lia));
      destruct (wait_loop _ _ _ _ _ _ (S k0) _) as [o k];
      unfold wait_outcome_spec in *;
      destruct IH as (Hk & Hpolls & Hrest);
      split; [lia|]; split;
      [ intros j Hj; destruct (decide (j = k0)) as [->|Hne]; [exact Hnow|apply Hpolls; lia]
      | destruct o;
        [ destruct Hrest as (Hnf' & Hrest); split;
          [ intros j Hj; destruct (decide (j = S k0)) as [->|Hne]; [exact Hnf|apply Hnf'; lia]
          | exact Hrest ]
        | destruct Hrest as (Hnf' & Hrest); split;
          [ intros j Hj; destruct (decide (j = S k0)) as [->|Hne]; [exact Hnf|apply Hnf'; lia]
          | exact Hrest ]
        | destruct Hrest as (Hlt & Hnf' & Hst); split; [lia|]; split; [|exact Hst];
          intros j Hj; destruct (decide (j = S k0)) as [->|Hne]; [exact Hnf|apply Hnf'; lia]
        | destruct Hrest as (Hlt & Hnf' & Hst); split; [lia|]; split; [|exact Hst];
          intros j Hj; destruct (decide (j = S k0)) as [->|Hne]; [exact Hnf|apply Hnf'; lia]
        | contradiction ] ]
  end.

Lemma wait_loop_spec (Hp : 1 <= poll_interval) :
  forall fuel k0, (Z.to_nat timeout <= fuel + k0)%nat ->
    spec k0 (loop fuel k0 (Z.of_nat k0 * poll_interval)).
Proof.
  induction fuel as [|f IH]; intros k0 Hfuel; simpl.
  - destruct (ready k0) eqn:Hr.
    + unfold wait_outcome_spec. split; [lia|]. split; [intros j Hj; lia|].
      split; [intros j Hj; lia|exact Hr].
    + destruct (decide (timeout <= Z.of_nat k0 * poll_interval)) as [Ht|Ht].
      * unfold wait_outcome_spec. split; [lia|]. split; [intros j Hj; lia|].
        split; [intros j Hj; lia|]. split; [exact Hr|]. split; [reflexivity|exact Ht].
      * exfalso. apply Ht. nia.
  - destruct (ready k0) eqn:Hr.
    + unfold wait_outcome_spec. split; [lia|]. split; [intros j Hj; lia|].
      split; [intros j Hj; lia|exact Hr].
    + destruct (decide (timeout <= Z.of_nat k0 * poll_interval)) as [Ht|Ht].
      { unfold wait_outcome_spec. split; [lia|]. split; [intros j Hj; lia|].
        split; [intros j Hj; lia|]. split; [exact Hr|]. split; [reflexivity|exact Ht]. }
      assert (Hnow : ready k0 = false /\ Z.of_nat k0 * poll_interval < timeout)
        by (split; [done|lia]).
      destruct (process_state_after (S k0)) eqn:Hs;
        [ continue_poll | continue_poll | continue_poll | continue_poll | |].
      * unfold wait_outcome_spec. split; [lia|]. split.
        { intros j Hj. assert (j = k0) as -> by lia. exact Hnow. }
        split; [lia|]. split; [intros j Hj; lia|exact Hs].
      * unfold wait_outcome_spec. split; [lia|]. split.
        { intros j Hj. assert (j = k0) as -> by lia. exact Hnow. }
        split; [lia|]. split; [intros j Hj; lia|exact Hs].
Qed.
(** The kill and exception exits come right after a sleep, which is
    only taken when the job was not ready at the preceding check. *)
Lemma wait_loop_fatal_after_sleep :
  forall fuel k0 tw o k, loop fuel k0 tw = (o, k) ->
    o = NotSubmitted \/ o = KilledBeforeSubmitted ->
    (k0 < k)%nat /\ ready (k - 1) = false.
Proof.
  induction fuel as [|f IH]; intros k0 tw o k Hl Ho; simpl in Hl.
  - destruct (ready k0); [injection Hl as <- <-; destruct Ho; discriminate|].
    destruct (decide (timeout <= tw)); injection Hl as <- <-; destruct Ho; discriminate.
  - destruct (ready k0) eqn:Hr; [injection Hl as <- <-; destruct Ho; discriminate|].
    destruct (decide (timeout <= tw)); [injection Hl as <- <-; destruct Ho; discriminate|].
    destruct (process_state_after (S k0));
      try (injection Hl as <- <-; split; [lia|]; by rewrite Nat.sub_1_r).
    all: destruct (IH _ _ _ _ Hl Ho) as [Hlt Hready]; split; [lia|exact Hready].
Qed.
End PollingProofs.

(** C8 (counterexample): the job gets its scheduler id and working
    directory during the first sleep and is killed in the same
    interval; the loop checks the state before it checks readiness
    again and raises [KilledBeforeSubmittedError] instead of
    succeeding. *)
Lemma wait_for_submitted_killed_when_ready :
  is_ready (fun k => Nat.leb 1 k) (fun k => Nat.leb 1 k) 1 = true /\
  wait_for_submitted 1 30 (fun k => Nat.leb 1 k) (fun k => Nat.leb 1 k)
    (fun _ => ProcessState.KILLED) = (KilledBeforeSubmitted, 1%nat).
Proof. split; reflexivity. Qed.

(** C8 (amended): with [poll_interval >= 1] the loop always ends, in
    exactly one of four ways described by [wait_outcome_spec]: each
    round it first returns normally if the job has both a scheduler
    job id and a remote working directory; otherwise it raises
    [SubmittingTimedOutError] once the time waited (sleeps times
    [poll_interval]) has reached [timeout]; otherwise it sleeps, then
    raises [NotSubmittedError] if the process state is [EXCEPTED] or
    [KilledBeforeSubmittedError] if it is [KILLED], whether or not the
    job got its id and working directory during that sleep. *)
Theorem wait_for_submitted_outcomes (poll_interval timeout : Z)
    (has_job_id has_workdir : nat -> bool) (process_state_after : nat -> ProcessState.t)
    (Hp : 1 <= poll_interval) :
  wait_outcome_spec poll_interval timeout has_job_id has_workdir process_state_after 0
    (wait_for_submitted poll_interval timeout has_job_id has_workdir process_state_after).
Proof.
  exact (wait_loop_spec poll_interval timeout has_job_id has_workdir process_state_after
           Hp (Z.to_nat timeout) 0 ltac:(lia)).
Qed.

Lemma wait_for_submitted_outcomes_witness :
  1 <= 1 /\
  wait_outcome_spec 1 30 (fun k => Nat.leb 3 k) (fun k => Nat.leb 1 k)
    (fun _ => ProcessState.RUNNING) 0
    (wait_for_submitted 1 30 (fun k => Nat.leb 3 k) (fun k => Nat.leb 1 k)
       (fun _ => ProcessState.RUNNING)).
Proof.
  split; [lia|].
  apply (wait_for_submitted_outcomes 1 30 (fun k => Nat.leb 3 k) (fun k => Nat.leb 1 k)
           (fun _ => ProcessState.RUNNING)).
  lia.
Defined.

(** C9: if the job already has a scheduler id and a working directory
    at the first check, the loop returns normally without sleeping,
    whatever the process state (also [KILLED] or [EXCEPTED]); the
    [EXCEPTED] and [KILLED] exits are only reached after a sleep taken
    because the job was not ready at the check before it. *)
Theorem wait_for_submitted_ready_at_first_check (poll_interval timeout : Z)
    (has_job_id has_workdir : nat -> bool) (process_state_after : nat -> ProcessState.t) :
  (is_ready has_job_id has_workdir 0 = true ->
   wait_for_submitted poll_interval timeout has_job_id has_workdir process_state_after
     = (Submitted, 0%nat)) /\
  (forall o k,
     wait_for_submitted poll_interval timeout has_job_id has_workdir process_state_after = (o, k) ->
     o = NotSubmitted \/ o = KilledBeforeSubmitted ->
     (1 <= k)%nat /\ is_ready has_job_id has_workdir (k - 1) = false).
Proof.
  split.
  - intros Hr. unfold wait_for_submitted.
    destruct (Z.to_nat timeout); simpl; by rewrite Hr.
  - intros o k Hl Ho.
    destruct (wait_loop_fatal_after_sleep _ _ _ _ _ _ _ _ _ _ Hl Ho). split; [lia|done].
Qed.

Lemma wait_for_submitted_ready_at_first_check_witness :
  is_ready (fun _ => true) (fun _ => true) 0 = true /\
  wait_for_submitted 1 30 (fun _ => true) (fun _ => true) (fun _ => ProcessState.KILLED)
    = (Submitted, 0%nat).
Proof.
  split; [reflexivity|].
  apply (proj1 (wait_for_submitted_ready_at_first_check 1 30 (fun _ => true) (fun _ => true)
                  (fun _ => ProcessState.KILLED))).
  reflexivity.
Defined.

(* ================================================================= *)
(** * The graph built by [nx.DiGraph(edges)] *)

Lemma dict_add_key_spec (l : list Z) (x : Z) :
  NoDup l -> NoDup (dict_add_key l x) /\ forall y, y ∈ dict_add_key l x <-> y ∈ l \/ y = x.
Proof.
  intros Hl. unfold dict_add_key. case_decide as Hx.
  - split; [done|]. intros y; split; [by left|]. intros [?| ->]; done.
  - split.
    + apply NoDup_app. split; [done|]. split; [|apply NoDup_singleton].
      intros y Hy Hy'. apply list_elem_of_singleton in Hy'. subst. done.
    + intros y. rewrite elem_of_app, list_elem_of_singleton. done.
Qed.

Lemma neighbors_add_node (G : DiGraph) (x w : Z) :
  (x ∉ g_node G -> g_succ G !! x = None /\ g_pred G !! x = None) ->
  neighbors (add_node_if_absent G x) w = neighbors G w /\
  predecessors (add_node_if_absent G x) w = predecessors G w.
Proof.
  intros Hfresh. unfold add_node_if_absent. case_decide as Hx; [done|].
  destruct (Hfresh Hx) as [Hs Hp].
  unfold neighbors, predecessors; simpl.
  destruct (decide (w = x)) as [->|Hne].
  - rewrite !lookup_insert_eq, Hs, Hp. done.
  - rewrite !lookup_insert_ne by congruence. done.
Qed.

Lemma add_node_wf_nodes (G : DiGraph) (x : Z) :
  NoDup (g_node G) ->
  (forall u, u ∉ g_node G -> g_succ G !! u = None /\ g_pred G !! u = None) ->
  NoDup (g_node (add_node_if_absent G x)) /\
  (forall u, u ∈ g_node (add_node_if_absent G x) <-> u ∈ g_node G \/ u = x) /\
  (forall u, u ∉ g_node (add_node_if_absent G x) ->
     g_succ (add_node_if_absent G x) !! u = None /\ g_pred (add_node_if_absent G x) !! u = None).
Proof.
  intros Hnd Hfresh. unfold add_node_if_absent. case_decide as Hx.
  - split; [done|]. split; [|done]. intros u; split; [by left|]. intros [?| ->]; done.
  - simpl. split; [|split].
    + apply NoDup_app. split; [done|]. split; [|apply NoDup_singleton].
      intros y Hy Hy'. apply list_elem_of_singleton in Hy'. subst. done.
    + intros u. rewrite elem_of_app, list_elem_of_singleton. done.
    + intros u Hu. rewrite elem_of_app, list_elem_of_singleton in Hu.
      rewrite !lookup_insert_ne by (intros ->; apply Hu; by right).
      apply Hfresh. intros H. apply Hu. by left.
Qed.

Lemma add_edge_wf (G : DiGraph) (es : list (Z * Z)) (u v : Z) :
  graph_wf G es -> graph_wf (add_edge G u v) (es ++ [(u, v)]).
Proof.
  intros (Hnd & Hends & Hnodes & Hfresh & Hsucc & Hpred).
  set (G1 := add_node_if_absent G u). set (G2 := add_node_if_absent G1 v).
  destruct (add_node_wf_nodes G u Hnd Hfresh) as (Hnd1 & Hmem1 & Hfresh1).
  destruct (add_node_wf_nodes G1 v Hnd1 Hfresh1) as (Hnd2 & Hmem2 & Hfresh2).
  fold G1 in Hnd1, Hmem1, Hfresh1. fold G1 G2 in Hnd2, Hmem2, Hfresh2.
  assert (HN : forall w, neighbors G2 w = neighbors G w /\ predecessors G2 w = predecessors G w).
  { intros w. destruct (neighbors_add_node G1 v w (Hfresh1 v)) as [E1 E2].
    destruct (neighbors_add_node G u w (Hfresh u)) as [E3 E4].
    fold G1 G2 in E1, E2, E3, E4. rewrite E1, E2, E3, E4. done. }
  assert (Hmem : forall x, x ∈ g_node G2 <-> x ∈ g_node G \/ x = u \/ x = v).
  { intros x. rewrite Hmem2, Hmem1. tauto. }
  assert (Hes : forall x y, (x, y) ∈ es ++ [(u, v)] <-> (x, y) ∈ es \/ (x = u /\ y = v)).
  { intros x y. rewrite elem_of_app, list_elem_of_singleton.
    split; intros [H|H]; try by left.
    - right. by injection H.
    - right. by destruct H as [-> ->]. }
  unfold graph_wf, add_edge. fold G1 G2. simpl.
  split; [done|]. split; [|split; [|split; [|split]]].
  - intros x y Hxy. apply Hes in Hxy as [Hxy|[-> ->]].
    + destruct (Hends x y Hxy). rewrite !Hmem. tauto.
    + rewrite !Hmem. tauto.
  - intros x Hx. apply Hmem in Hx as [Hx|[->| ->]].
    + destruct (Hnodes x Hx) as [w Hw]. exists w. rewrite !Hes. tauto.
    + exists v. left. apply Hes. tauto.
    + exists u. right. apply Hes. tauto.
  - intros x Hx. assert (x <> u /\ x <> v) as [Hxu Hxv] by (rewrite Hmem in Hx; tauto).
    rewrite !lookup_insert_ne by congruence. by apply Hfresh2.
  - intros w. unfold neighbors at 1 2; simpl.
    destruct (decide (w = u)) as [->|Hne].
    + rewrite lookup_insert_eq; simpl. fold (neighbors G2 u).
      rewrite (proj1 (HN u)). destruct (Hsucc u) as [Hn Hm].
      destruct (dict_add_key_spec (neighbors G u) v Hn) as [Hn' Hm'].
      split; [done|]. intros y. rewrite Hm', Hm, Hes. split; [intros [?| ->]; tauto|].
      intros [?|[_ ->]]; tauto.
    + rewrite lookup_insert_ne by congruence. fold (neighbors G2 w).
      rewrite (proj1 (HN w)). destruct (Hsucc w) as [Hn Hm].
      split; [done|]. intros y. rewrite Hm, Hes. split; [tauto|].
      intros [?|[? _]]; [done|congruence].
  - intros w. unfold predecessors at 1 2; simpl.
    destruct (decide (w = v)) as [->|Hne].
    + rewrite lookup_insert_eq; simpl. fold (predecessors G2 v).
      rewrite (proj2 (HN v)). destruct (Hpred v) as [Hn Hm].
      destruct (dict_add_key_spec (predecessors G v) u Hn) as [Hn' Hm'].
      split; [done|]. intros y. rewrite Hm', Hm, Hes. split; [intros [?| ->]; tauto|].
      intros [?|[-> _]]; tauto.
    + rewrite lookup_insert_ne by congruence. fold (predecessors G2 w).
      rewrite (proj2 (HN w)). destruct (Hpred w) as [Hn Hm].
      split; [done|]. intros y. rewrite Hm, Hes. split; [tauto|].
      intros [?|[_ ?]]; [done|congruence].
Qed.

Lemma add_edges_from_wf (es acc : list (Z * Z)) (G : DiGraph) :
  graph_wf G acc -> graph_wf (add_edges_from G es) (acc ++ es).
Proof.
  revert G acc. induction es as [|[u v] es IH]; intros G acc HG; simpl.
  - by rewrite app_nil_r.
  - replace (acc ++ (u, v) :: es) with ((acc ++ [(u, v)]) ++ es)
      by by rewrite <- (assoc_L (++)).
    apply IH, add_edge_wf, HG.
Qed.

Lemma DiGraph_of_wf (es : list (Z * Z)) : graph_wf (DiGraph_of es) es.
Proof.
  unfold DiGraph_of. change es with ([] ++ es) at 2. apply add_edges_from_wf.
  unfold graph_wf, neighbors, predecessors; simpl.
  split; [constructor|]. split; [intros ? ? H; inversion H|].
  split; [intros ? H; inversion H|]. split; [intros; rewrite lookup_empty; done|].
  split; intros; rewrite lookup_empty; simpl; (split; [constructor|]);
    intros; split; intros H; inversion H.
Qed.

(* ================================================================= *)
(** * Kahn's layering *)

Lemma filter_ext_elem {A} (P Q : A -> Prop) `{forall x, Decision (P x)}
    `{forall x, Decision (Q x)} (l : list A) :
  (forall x, x ∈ l -> P x <-> Q x) -> filter P l = filter Q l.
Proof.
  induction l as [|x l IH]; intros Hpq; [done|].
  rewrite !filter_cons.
  rewrite IH by (intros y Hy; apply Hpq; by right).
  destruct (decide (P x)) as [Hp|Hp], (decide (Q x)) as [Hq|Hq]; try done.
  - exfalso. apply Hq, Hpq; [left|]; done.
  - exfalso. apply Hp, Hpq; [left|]; done.
Qed.

Lemma decrement_children_spec (cs : list Z) : forall (m : gmap Z Z) (zero : list Z),
  NoDup cs -> (forall c, c ∈ cs -> is_Some (m !! c)) ->
  exists m', decrement_children m zero cs = Some (m', zero ++ filter (fun c => m !! c = Some 1) cs) /\
    (forall v, v ∉ cs -> m' !! v = m !! v) /\
    (forall v k, v ∈ cs -> m !! v = Some k ->
       m' !! v = if decide (k - 1 = 0) then None else Some (k - 1)).
Proof.
  induction cs as [|c cs IH]; intros m zero Hnd Hsome; simpl.
  - exists m. rewrite app_nil_r. split; [done|]. split; [done|].
    intros v k Hv. inversion Hv.
  - apply NoDup_cons in Hnd as [Hc Hnd].
    destruct (Hsome c (list_elem_of_here c cs)) as [d Hd]. rewrite Hd.
    case_decide as Hd1.
    + destruct (IH (delete c m) (zero ++ [c]) Hnd) as (m' & Hrun & Hout & Hin).
      { intros x Hx. rewrite lookup_delete_ne by (intros ->; done).
        apply Hsome. by right. }
      exists m'. rewrite Hrun. split; [|split].
      * rewrite filter_cons. rewrite decide_True by (rewrite Hd; f_equal; lia).
        rewrite <- (assoc_L (++)). simpl. do 4 f_equal.
        apply filter_ext_elem. intros x Hx. rewrite lookup_delete_ne by (intros ->; done). done.
      * intros v Hv. rewrite Hout by (intros ?; apply Hv; by right).
        rewrite lookup_delete_ne; [done|]. intros ->. apply Hv. left.
      * intros v k Hv Hk. apply elem_of_cons in Hv as [->|Hv].
        -- rewrite Hout by done. rewrite lookup_delete_eq.
           rewrite Hd in Hk. injection Hk as <-. by rewrite decide_True.
        -- apply Hin; [done|]. rewrite lookup_delete_ne by (intros ->; done). done.
    + destruct (IH (<[c := d - 1]> m) zero Hnd) as (m' & Hrun & Hout & Hin).
      { intros x Hx. rewrite lookup_insert_ne by (intros ->; done).
        apply Hsome. by right. }
      exists m'. rewrite Hrun. split; [|split].
      * rewrite filter_cons. rewrite decide_False by (rewrite Hd; intros H; injection H; lia).
        do 3 f_equal.
        apply filter_ext_elem. intros x Hx. rewrite lookup_insert_ne by (intros ->; done). done.
      * intros v Hv. rewrite Hout by (intros ?; apply Hv; by right).
        rewrite lookup_insert_ne; [done|]. intros ->. apply Hv. left.
      * intros v k Hv Hk. apply elem_of_cons in Hv as [->|Hv].
        -- rewrite Hout by done. rewrite lookup_insert_eq.
           rewrite Hd in Hk. injection Hk as <-. by rewrite decide_False.
        -- apply Hin; [done|]. rewrite lookup_insert_ne by (intros ->; done). done.
Qed.

Lemma filter_not_in_snoc_out (P l : list Z) (n : Z) :
  n ∉ l -> filter (fun u => u ∉ P ++ [n]) l = filter (fun u => u ∉ P) l.
Proof.
  intros Hn. apply filter_ext_elem. intros x Hx.
  rewrite elem_of_app, list_elem_of_singleton.
  split; [tauto|]. intros HP [?| ->]; done.
Qed.

Lemma cnt_snoc_in (P l : list Z) (n : Z) :
  NoDup l -> n ∈ l -> n ∉ P ->
  (length (filter (fun u => u ∉ P ++ [n]) l) + 1 = length (filter (fun u => u ∉ P) l))%nat.
Proof.
  induction l as [|x l IH]; intros Hnd Hn HP; [inversion Hn|].
  apply NoDup_cons in Hnd as [Hx Hnd]. rewrite !filter_cons.
  destruct (decide (x = n)) as [->|Hne].
  - rewrite decide_False by (rewrite elem_of_app, list_elem_of_singleton; tauto).
    rewrite decide_True by done. simpl. rewrite filter_not_in_snoc_out by done. lia.
  - apply elem_of_cons in Hn as [?|Hn]; [congruence|].
    destruct (decide (x ∈ P)) as [HxP|HxP].
    + rewrite decide_False by (rewrite elem_of_app; tauto).
      rewrite decide_False by tauto. by apply IH.
    + rewrite decide_True by (rewrite elem_of_app, list_elem_of_singleton; tauto).
      rewrite decide_True by done. simpl. rewrite <- (IH Hnd Hn HP). lia.
Qed.

Lemma filter_not_in_nil (l : list Z) : filter (fun u => u ∉ []) l = l.
Proof.
  induction l as [|x l IH]; [done|]. rewrite filter_cons.
  rewrite decide_True by (intros H; inversion H). by rewrite IH.
Qed.

Lemma filter_not_in_empty (P l : list Z) :
  length (filter (fun u => u ∉ P) l) = 0%nat -> forall u, u ∈ l -> u ∈ P.
Proof.
  intros H u Hu. apply length_zero_iff_nil in H.
  destruct (decide (u ∈ P)) as [|HuP]; [done|].
  assert (u ∈ filter (fun u => u ∉ P) l) as Hf by (apply list_elem_of_filter; done).
  rewrite H in Hf. inversion Hf.
Qed.

Lemma filter_not_in_pos (P l : list Z) (n : Z) :
  n ∈ l -> n ∉ P -> (0 < length (filter (fun u => u ∉ P) l))%nat.
Proof.
  intros Hn HP. destruct (filter (fun u => u ∉ P) l) eqn:E; [|simpl; lia].
  exfalso. apply HP. apply (filter_not_in_empty P l); [by rewrite E|done].
Qed.

Section KahnInvariant.
Variable G : DiGraph.
Variable es : list (Z * Z).
Hypothesis Hwf : graph_wf G es.

Lemma kahn_process_node (P rest zero : list Z) (n : Z) (m : gmap Z Z) :
  kahn_inv G es P (n :: rest) m ->
  n ∈ g_node G /\
  exists m' new, decrement_children m zero (neighbors G n) = Some (m', zero ++ new) /\
    kahn_inv G es (P ++ [n]) (rest ++ new) m'.
Proof.
  destruct Hwf as (HndV & Hends & _ & _ & Hsucc & Hpred).
  intros (I1 & I2 & I3 & I4 & I5).
  assert (Hn : n ∈ P ++ n :: rest) by (apply elem_of_app; right; left).
  destruct (I3 n Hn) as (Hmn & HnV & HnP).
  assert (HnotP : n ∉ P).
  { intros HP. apply NoDup_app in I4 as (_ & I4 & _). apply (I4 n HP). left. }
  destruct (Hsucc n) as [Hcs_nd Hcs].
  assert (Hcnt : forall c, c ∈ neighbors G n -> m !! c = Some (Z.of_nat (cnt G P c))).
  { intros c Hc. apply Hcs in Hc.
    destruct (m !! c) as [k|] eqn:Hk.
    - by destruct (I1 c k Hk) as (_ & -> & _).
    - exfalso. destruct (Hends n c Hc) as [_ HcV].
      destruct (I3 c (I2 c HcV Hk)) as (_ & _ & Hpc). by apply HnotP, Hpc. }
  split; [done|].
  destruct (decrement_children_spec (neighbors G n) m zero Hcs_nd) as (m' & Hrun & Hout & Hin).
  { intros c Hc. rewrite (Hcnt c Hc). eexists; done. }
  set (new := filter (fun c => m !! c = Some 1) (neighbors G n)) in Hrun.
  exists m', new. split; [done|].
  (* how the counts change *)
  assert (HcntIn : forall v, v ∈ neighbors G n -> (cnt G (P ++ [n]) v + 1 = cnt G P v)%nat).
  { intros v Hv. unfold cnt. destruct (Hpred v) as [Hpnd Hpm].
    apply cnt_snoc_in; [done| |done]. apply Hpm, Hcs, Hv. }
  assert (HcntOut : forall v, v ∉ neighbors G n -> cnt G (P ++ [n]) v = cnt G P v).
  { intros v Hv. unfold cnt. destruct (Hpred v) as [Hpnd Hpm].
    rewrite filter_not_in_snoc_out; [done|]. intros Hnv. apply Hv, Hcs, Hpm, Hnv. }
  assert (Hnew : forall v, v ∈ new <-> v ∈ neighbors G n /\ m !! v = Some 1).
  { intros v. unfold new. rewrite list_elem_of_filter. tauto. }
  assert (Hold : forall v, v ∈ P ++ n :: rest -> v ∉ neighbors G n).
  { intros v Hv Hvc. destruct (I3 v Hv) as (Hmv & _). rewrite (Hcnt v Hvc) in Hmv. done. }
  assert (Hlist : forall v, v ∈ (P ++ [n]) ++ rest ++ new <-> v ∈ P ++ n :: rest \/ v ∈ new).
  { intros v. set_solver. }
  split; [|split; [|split; [|split]]].
  - (* I1 *)
    intros v k Hk. destruct (decide (v ∈ neighbors G n)) as [Hv|Hv].
    + pose proof (HcntIn v Hv) as Hc.
      rewrite (Hin v _ Hv (Hcnt v Hv)) in Hk.
      case_decide; [done|]. injection Hk as <-.
      split; [apply (Hends n v (proj1 (Hcs v) Hv))|]. split; lia.
    + rewrite Hout in Hk by done. rewrite HcntOut by done. by apply I1.
  - (* I2 *)
    intros v HvV Hv'. apply Hlist.
    destruct (decide (v ∈ neighbors G n)) as [Hv|Hv].
    + right. apply Hnew. split; [done|].
      rewrite (Hin v _ Hv (Hcnt v Hv)) in Hv'. case_decide; [|done].
      rewrite (Hcnt v Hv). f_equal. lia.
    + left. rewrite Hout in Hv' by done. by apply I2.
  - (* I3 *)
    intros v Hv. apply Hlist in Hv as [Hv|Hv].
    + destruct (I3 v Hv) as (Hmv & HvV & Hpv).
      rewrite Hout by (by apply Hold). split; [done|]. split; [done|].
      intros u Hu. apply elem_of_app. left. by apply Hpv.
    + apply Hnew in Hv as [Hvc Hm1].
      pose proof (HcntIn v Hvc) as Hc. rewrite (Hcnt v Hvc) in Hm1.
      injection Hm1 as Hm1.
      split; [rewrite (Hin v _ Hvc (Hcnt v Hvc)); case_decide; [done|lia]|].
      split; [apply (Hends n v (proj1 (Hcs v) Hvc))|].
      intros u Hu. destruct (Hpred v) as [_ Hpm].
      apply (filter_not_in_empty (P ++ [n]) (predecessors G v)); [|by apply Hpm].
      fold (cnt G (P ++ [n]) v). lia.
  - (* I4 *)
    replace ((P ++ [n]) ++ rest ++ new) with ((P ++ n :: rest) ++ new)
      by (by rewrite <- !(assoc_L (++))).
    apply NoDup_app. split; [done|]. split.
    + intros x Hx Hx'. apply Hnew in Hx' as [Hxc _]. by apply (Hold x).
    + apply NoDup_filter, Hcs_nd.
  - (* I5 *)
    unfold topo_ok. rewrite reverse_snoc. simpl. split; [|done].
    intros u Hu. apply elem_of_reverse. by apply HnP.
Qed.

Lemma kahn_process_generation (this : list Z) :
  forall P zero m, kahn_inv G es P (this ++ zero) m ->
  exists m' zero', process_generation G m zero this = Some (m', zero') /\
    kahn_inv G es (P ++ this) zero' m'.
Proof.
  induction this as [|n rest IH]; intros P zero m Hinv; simpl.
  - exists m, zero. rewrite app_nil_r. done.
  - destruct (kahn_process_node P (rest ++ zero) zero n m Hinv)
      as (HnV & m1 & new & Hrun & Hinv1).
    rewrite decide_True by done. rewrite Hrun.
    rewrite <- (assoc_L (++)) in Hinv1.
    destruct (IH (P ++ [n]) (zero ++ new) m1 Hinv1) as (m' & zero' & Hrun' & Hinv').
    exists m', zero'. split; [done|].
    by rewrite <- (assoc_L (++)) in Hinv'.
Qed.

Lemma kahn_length (P pending : list Z) (m : gmap Z Z) :
  kahn_inv G es P pending m -> (length (P ++ pending) <= length (g_node G))%nat.
Proof.
  intros (_ & _ & I3 & I4 & _). apply NoDup_incl_length.
  - by apply NoDup_ListNoDup.
  - intros x Hx. apply list_elem_of_In. apply list_elem_of_In in Hx. by apply I3.
Qed.

Lemma generations_loop_inv (fuel : nat) : forall P zero m,
  kahn_inv G es P zero m -> (length (g_node G) <= fuel + length P)%nat ->
  generations_loop G fuel m zero = Unfeasible \/
  exists gens, generations_loop G fuel m zero = Generations gens /\
    kahn_inv G es (P ++ concat gens) [] ∅ /\ gens_ok es P gens.
Proof.
  induction fuel as [|f IH]; intros P zero m Hinv Hfuel.
  - destruct zero as [|z zs]; simpl.
    + case_decide as Hm; [|by left]. right. exists []. subst m.
      rewrite !app_nil_r in *. done.
    + exfalso. pose proof (kahn_length _ _ _ Hinv) as Hl.
      rewrite length_app in Hl. simpl in Hl. lia.
  - destruct zero as [|z zs]; cbn -[process_generation].
    + case_decide as Hm; [|by left]. right. exists []. subst m.
      rewrite !app_nil_r in *. done.
    + destruct (kahn_process_generation (z :: zs) P [] m) as (m' & zero' & Hrun & Hinv').
      { by rewrite app_nil_r. }
      rewrite Hrun.
      destruct (IH (P ++ z :: zs) zero' m' Hinv') as [Hu|(gens & Hg & Hinvf & Hgens)].
      { rewrite length_app. simpl. lia. }
      * left. by rewrite Hu.
      * right. exists ((z :: zs) :: gens). rewrite Hg. split; [done|].
        split; [simpl; by rewrite <- (assoc_L (++)) in Hinvf|].
        split; [|done]. intros v u Hv Hu.
        destruct Hinv as (_ & _ & I3 & _). apply (I3 v); [|done].
        apply elem_of_app. by right.
Qed.
End KahnInvariant.

Lemma list_to_map_graph (f : Z -> Z) (l : list Z) (v : Z) :
  (list_to_map (map (fun x => (x, f x)) l) : gmap Z Z) !! v =
  if decide (v ∈ l) then Some (f v) else None.
Proof.
  induction l as [|x l IH]; cbn [map].
  - rewrite list_to_map_nil, lookup_empty. rewrite decide_False; [done|]. intros H; inversion H.
  - rewrite list_to_map_cons. destruct (decide (v = x)) as [->|Hne].
    + rewrite lookup_insert_eq. rewrite decide_True; [done|]. left.
    + rewrite lookup_insert_ne by congruence. rewrite IH.
      destruct (decide (v ∈ l)), (decide (v ∈ x :: l)); try done.
      * exfalso. apply n. by right.
      * exfalso. apply elem_of_cons in e as [?|?]; done.
Qed.

Lemma kahn_inv_initial (es : list (Z * Z)) :
  let G := DiGraph_of es in
  kahn_inv G es [] (initial_zero G) (initial_indegree_map G).
Proof.
  intros G. pose proof (DiGraph_of_wf es) as Hwf. fold G in Hwf.
  destruct Hwf as (HndV & Hends & _ & _ & _ & Hpred).
  assert (Hcnt : forall v, cnt G [] v = in_degree G v).
  { intros v. unfold cnt, in_degree. by rewrite filter_not_in_nil. }
  assert (Hlk : forall v, initial_indegree_map G !! v =
            if decide (v ∈ g_node G /\ (0 < in_degree G v)%nat)
            then Some (Z.of_nat (in_degree G v)) else None).
  { intros v. unfold initial_indegree_map.
    rewrite (list_to_map_graph (fun v => Z.of_nat (in_degree G v))).
    destruct (decide (v ∈ _)) as [Hv|Hv]; rewrite list_elem_of_filter in Hv.
    - rewrite decide_True; tauto.
    - rewrite decide_False; tauto. }
  assert (Hz : forall v, v ∈ initial_zero G <-> v ∈ g_node G /\ in_degree G v = 0%nat).
  { intros v. unfold initial_zero. rewrite list_elem_of_filter. tauto. }
  split; [|split; [|split; [|split]]]; simpl.
  - intros v k Hk. rewrite Hlk in Hk. case_decide as Hv; [|done].
    injection Hk as <-. rewrite Hcnt. tauto.
  - intros v HvV Hv. rewrite Hlk in Hv. case_decide as Hd; [done|].
    apply Hz. split; [done|]. destruct (in_degree G v); [done|].
    exfalso. apply Hd. split; [done|lia].
  - intros v Hv. apply Hz in Hv as [HvV Hd0].
    rewrite Hlk. rewrite decide_False by lia. split; [done|]. split; [done|].
    intros u Hu. exfalso. destruct (Hpred v) as [_ Hpm]. apply Hpm in Hu.
    unfold in_degree in Hd0. apply length_zero_iff_nil in Hd0. rewrite Hd0 in Hu.
    inversion Hu.
  - apply NoDup_filter, HndV.
  - done.
Qed.

(** [topological_generations] on [nx.DiGraph(es)] either reports
    [NetworkXUnfeasible] or yields generations that list every node
    once, each after all its predecessors. *)
Lemma topological_generations_spec (es : list (Z * Z)) :
  let G := DiGraph_of es in
  topological_generations G = Unfeasible \/
  exists gens, topological_generations G = Generations gens /\
    kahn_inv G es (concat gens) [] ∅ /\ gens_ok es [] gens.
Proof.
  intros G. unfold topological_generations.
  apply (generations_loop_inv G es (DiGraph_of_wf es) _ [] _ _ (kahn_inv_initial es)).
  simpl. lia.
Qed.

Lemma clos_trans_last (es : list (Z * Z)) (u w : Z) :
  clos_trans Z (edge_rel es) u w ->
  edge_rel es u w \/ exists y, clos_trans Z (edge_rel es) u y /\ edge_rel es y w.
Proof.
  induction 1 as [u w Huw|u y w Huy _ _ IH2].
  - by left.
  - right. destruct IH2 as [Hyw|(y' & Hyy' & Hy'w)].
    + exists y. done.
    + exists y'. split; [|done]. eapply t_trans; eauto.
Qed.

Lemma topo_ok_rev_closed (es : list (Z * Z)) (l : list Z) :
  topo_ok_rev es l -> forall u w, clos_trans Z (edge_rel es) u w -> w ∈ l -> u ∈ l.
Proof.
  intros Hl.
  assert (Hstep : forall u w, edge_rel es u w -> w ∈ l -> u ∈ l).
  { clear -Hl. induction l as [|x l IH]; intros u w Huw Hw; [inversion Hw|].
    destruct Hl as [Hx Hl]. apply elem_of_cons in Hw as [->|Hw].
    - right. by apply Hx.
    - right. by apply (IH Hl u w). }
  induction 1 as [u w Huw|u y w _ IH1 _ IH2]; intros Hw.
  - by apply (Hstep u w).
  - by apply IH1, IH2.
Qed.

Lemma topo_ok_rev_acyclic (es : list (Z * Z)) (l : list Z) :
  topo_ok_rev es l -> forall v, v ∈ l -> ~ clos_trans Z (edge_rel es) v v.
Proof.
  induction l as [|x l IH]; intros Hl v Hv Hvv; [inversion Hv|].
  destruct Hl as [Hx Hl]. apply elem_of_cons in Hv as [->|Hv].
  - destruct (clos_trans_last es x x Hvv) as [Hxx|(y & Hxy & Hyx)].
    + apply (IH Hl x); [by apply Hx|done].
    + apply (IH Hl x); [|done].
      apply (topo_ok_rev_closed es l Hl x y Hxy). by apply Hx.
  - by apply (IH Hl v).
Qed.

(** A graph whose edge list has a cycle is reported as not a DAG. *)
Lemma is_directed_acyclic_graph_cycle (es : list (Z * Z)) (v : Z) :
  clos_trans Z (edge_rel es) v v ->
  is_directed_acyclic_graph (DiGraph_of es) = Some false.
Proof.
  intros Hvv. unfold is_directed_acyclic_graph.
  destruct (topological_generations_spec es) as [->|(gens & -> & Hinv & _)]; [done|].
  exfalso. destruct Hinv as (_ & I2 & _ & _ & I5).
  destruct (clos_trans_last es v v Hvv) as [Hvv'|(y & _ & Hyv)];
    [pose proof (proj2 (proj1 (proj2 (DiGraph_of_wf es)) v v Hvv')) as HvV
    |pose proof (proj2 (proj1 (proj2 (DiGraph_of_wf es)) y v Hyv)) as HvV];
  (assert (Hv : v ∈ concat gens) by (rewrite <- (app_nil_r (concat gens)); apply I2; [done|apply lookup_empty]);
   apply (topo_ok_rev_acyclic es _ I5 v); [by apply elem_of_reverse|done]).
Qed.

(** Claim C5: for every graph whose edge list contains a cycle, the
    workchain's [start] step returns [NOT_A_DAG] before any node has
    been submitted, whatever the jobs do. *)
Theorem run_graph_cycle_not_a_dag (async_ok : Z -> bool) (job_state : Z -> JobOutcome)
    (builds_ok : Z -> bool)
    (g : Graph) (v : Z) :
  clos_trans Z (edge_rel (edges g)) v v ->
  run_graph async_ok job_state builds_ok g = mkRunResult [] [] NOT_A_DAG.
Proof.
  intros Hvv. unfold run_graph, start_and_submit.
  rewrite (is_directed_acyclic_graph_cycle (edges g) v Hvv). done.
Qed.

Lemma run_graph_cycle_not_a_dag_witness :
  clos_trans Z (edge_rel (edges graph_cycle)) 0 0 /\
  run_graph (fun _ => true) (fun _ => JobFinishedOk) (fun _ => true) graph_cycle = mkRunResult [] [] NOT_A_DAG.
Proof.
  assert (H : clos_trans Z (edge_rel (edges graph_cycle)) 0 0).
  { apply (t_trans _ _ 0 1); [apply t_step; unfold edge_rel; simpl; set_solver|].
    apply (t_trans _ _ 1 2); apply t_step; unfold edge_rel; simpl; set_solver. }
  split; [exact H|]. exact (run_graph_cycle_not_a_dag _ _ _ graph_cycle 0 H).
Defined.

(* ================================================================= *)
(** * The workchain *)

Lemma check_deps_none (ok : Z -> bool) (deps ts : list Z) :
  check_deps ok deps ts = None -> forall d, d ∈ deps -> (d ∉ ts) /\ ok d = true.
Proof.
  induction deps as [|d0 ds IH]; simpl; intros H d Hd; [inversion Hd|].
  case_bool_decide as Hts; [done|]. destruct (ok d0) eqn:Hok; [|done].
  apply elem_of_cons in Hd as [->|Hd]; [done|]. by apply IH.
Qed.


Lemma submit_front_safe (ok : Z -> bool) (bld : Z -> bool) (dag : DiGraph) (g : Graph) (gen : list Z) :
  forall na ts new r, submit_front ok bld dag g gen na ts = (new, r) ->
  exists added, new = ts ++ added /\
    forall x d, x ∈ added -> d ∈ predecessors dag x -> d ∈ na /\ ok d = true.
Proof.
  induction gen as [|x rest IH]; simpl; intros na ts new r Hrun.
  - injection Hrun as <- _. exists []. rewrite app_nil_r. split; [done|].
    intros x d Hx. inversion Hx.
  - destruct (forallb _ _) eqn:Hall; simpl in Hrun.
    2:{ injection Hrun as <- _. exists []. rewrite app_nil_r. split; [done|].
        intros ? ? Hx. inversion Hx. }
    destruct (check_deps ok (predecessors dag x) ts) as [e|] eqn:Hchk.
    { injection Hrun as <- _. exists []. rewrite app_nil_r. split; [done|].
      intros ? ? Hx. inversion Hx. }
    destruct (py_index_ok _ x); simpl in Hrun.
    2:{ injection Hrun as <- _. exists []. rewrite app_nil_r. split; [done|].
        intros ? ? Hx. inversion Hx. }
    destruct (bld x); simpl in Hrun.
    2:{ injection Hrun as <- _. exists []. rewrite app_nil_r. split; [done|].
        intros ? ? Hx. inversion Hx. }
    destruct (IH na (ts ++ [x]) new r Hrun) as (added & -> & Hadded).
    exists (x :: added). split; [by rewrite <- (assoc_L (++))|].
    intros y d Hy Hd. apply elem_of_cons in Hy as [->|Hy]; [|by apply (Hadded y)].
    apply forallb_forall with (x := d) in Hall; [|by apply list_elem_of_In].
    apply bool_decide_eq_true in Hall.
    destruct (check_deps_none ok _ ts Hchk d Hd) as [Hts Hok].
    split; [|done]. apply elem_of_app in Hall as [?|?]; done.
Qed.

Lemma submit_generations_safe (ok : Z -> bool) (bld : Z -> bool) (dag : DiGraph) (g : Graph)
    (front : list (list Z)) :
  forall na na' r, submit_generations ok bld dag g front na = (na', r) ->
  exists added, na' = na ++ added /\
    forall x d, x ∈ added -> d ∈ predecessors dag x -> d ∈ na' /\ ok d = true.
Proof.
  induction front as [|gen rest IH]; simpl; intros na na' r Hrun.
  - injection Hrun as <- _. exists []. rewrite app_nil_r. split; [done|].
    intros x d Hx. inversion Hx.
  - destruct (submit_front ok bld dag g gen na []) as [new r0] eqn:Hf.
    destruct (submit_front_safe ok bld dag g gen na [] new r0 Hf) as (added0 & Hnew & Hadd0).
    simpl in Hnew. subst new.
    destruct r0 as [e|].
    + injection Hrun as <- _. exists added0. split; [done|].
      intros x d Hx Hd. destruct (Hadd0 x d Hx Hd). split; [|done].
      apply elem_of_app. by left.
    + destruct (IH _ _ _ Hrun) as (added1 & -> & Hadd1).
      exists (added0 ++ added1). split; [by rewrite (assoc_L (++))|].
      intros x d Hx Hd. apply elem_of_app in Hx as [Hx|Hx]; [|by apply (Hadd1 x)].
      destruct (Hadd0 x d Hx Hd). split; [|done].
      rewrite !elem_of_app. tauto.
Qed.

Lemma run_graph_submitted (ok : Z -> bool) (js : Z -> JobOutcome) (bld : Z -> bool) (g : Graph) :
  exists r, start_and_submit ok bld g = (submitted (run_graph ok js bld g), r).
Proof.
  unfold run_graph. destruct (start_and_submit ok bld g) as [na [e|]]; [by eexists|].
  destruct (wait_and_finalize ok js na). by eexists.
Qed.

(** Every submitted node has all its predecessors submitted before it
    with a successful advance-submission. *)
Lemma run_graph_submitted_safe (ok : Z -> bool) (js : Z -> JobOutcome) (bld : Z -> bool) (g : Graph) :
  forall x d, x ∈ submitted (run_graph ok js bld g) -> (d, x) ∈ edges g ->
  d ∈ submitted (run_graph ok js bld g) /\ ok d = true.
Proof.
  destruct (run_graph_submitted ok js bld g) as [r Hs].
  revert Hs. generalize (submitted (run_graph ok js bld g)). intros na Hs.
  unfold start_and_submit in Hs.
  destruct (is_directed_acyclic_graph _) as [[|]|];
    [|injection Hs as <- _; intros ? ? Hx; inversion Hx
     |injection Hs as <- _; intros ? ? Hx; inversion Hx].
  destruct (topological_generations _) as [front| | |];
    try (injection Hs as <- _; intros ? ? Hx; inversion Hx).
  destruct (submit_generations_safe _ bld _ _ _ _ _ _ Hs) as (added & -> & Hadd).
  intros x d Hx Hd. apply (Hadd x); [done|].
  destruct (DiGraph_of_wf (edges g)) as (_ & _ & _ & _ & _ & Hpred).
  by apply (proj2 (Hpred x)).
Qed.




Lemma wait_all_ok (ok : Z -> bool) (js : Z -> JobOutcome) (na : list Z) :
  wait_all ok js na = if forallb ok na then Some (map (fun n => (n, js n)) na) else None.
Proof.
  induction na as [|n na IH]; simpl; [done|].
  destruct (ok n); simpl; [|done]. rewrite IH. by destruct (forallb ok na).
Qed.

(** Claim C4 (counterexample): node [A]'s calculation job fails after
    its advance-submission finished ok; the workchain waits for both
    jobs and still ends [FINISHED_OK]: [finalize] never looks at them. *)
Lemma run_graph_failed_job_finished_ok :
  run_graph (fun _ => true) A_failed (fun _ => true) graph_AB =
    mkRunResult [0; 1] [(0, JobFinishedFailed); (1, JobFinishedOk)] FINISHED_OK.
Proof. reflexivity. Qed.

(** Claim C4 (amended): once every generation has been submitted
    (the nodes [na], in submission order), the workchain loads the job
    behind each advance-submission and waits for all of them; if every
    advance-submission finished ok it ends [FINISHED_OK] whatever the
    jobs' terminal states, otherwise reading the missing [future]
    output raises and it ends excepted. *)
Theorem run_graph_finalize_ignores_jobs (ok : Z -> bool) (js : Z -> JobOutcome) (bld : Z -> bool)
    (g : Graph) (na : list Z) :
  start_and_submit ok bld g = (na, None) -> na <> [] ->
  run_graph ok js bld g =
    if forallb ok na then mkRunResult na (map (fun n => (n, js n)) na) FINISHED_OK
    else mkRunResult na [] EXCEPTED.
Proof.
  intros Hs Hne. unfold run_graph. rewrite Hs.
  destruct na as [|n na']; [done|]. unfold wait_and_finalize.
  rewrite wait_all_ok. by destruct (forallb ok (n :: na')).
Qed.

Lemma run_graph_finalize_ignores_jobs_witness :
  start_and_submit (fun _ => true) (fun _ => true) graph_AB = ([0; 1], None) /\ [0; 1] <> [] /\
  run_graph (fun _ => true) A_failed (fun _ => true) graph_AB =
    mkRunResult [0; 1] [(0, A_failed 0); (1, A_failed 1)] FINISHED_OK.
Proof.
  assert (Hs : start_and_submit (fun _ => true) (fun _ => true) graph_AB = ([0; 1], None)) by reflexivity.
  assert (Hne : [0; 1] <> []) by discriminate.
  split; [exact Hs|]. split; [exact Hne|].
  exact (run_graph_finalize_ignores_jobs (fun _ => true) A_failed (fun _ => true) graph_AB [0; 1] Hs Hne).
Defined.









(** Claim C2 (failing input): in [graph_ABC] node [C] (index 2) is in no
    edge.  [nx.DiGraph(graph.edges)] does not contain it, so the layering
    puts only [A] and [B] into generations, [C] is never submitted, and
    the workchain still ends [FINISHED_OK]. *)
Theorem topological_generations_drops_isolated_node :
  length (nodes graph_ABC) = 3%nat /\
  topological_generations (DiGraph_of (edges graph_ABC)) = Generations [[0]; [1]] /\
  run_graph (fun _ => true) (fun _ => JobFinishedOk) (fun _ => true) graph_ABC =
    mkRunResult [0; 1] [(0, JobFinishedOk); (1, JobFinishedOk)] FINISHED_OK.
Proof. split; [|split]; reflexivity. Qed.

(* ================================================================= *)
(** * Uploads, triplets and directories of a staging tree *)

Lemma foldl_insert_lookup (ups : list UploadFile.t) : forall (m : gmap string PurePath) l,
  foldl (fun m u => <[UploadFile.input_label u := UploadFile.source u]> m) m ups !! l =
  match last (filter (fun u => UploadFile.input_label u = l) ups) with
  | Some u => Some (UploadFile.source u)
  | None => m !! l
  end.
Proof.
  induction ups as [|u ups IH]; intros m l; simpl; [done|].
  rewrite IH, filter_cons. case_decide as Hl.
  - rewrite last_cons. destruct (last _); [done|]. subst l. by rewrite lookup_insert_eq.
  - destruct (last _); [done|]. by rewrite lookup_insert_ne.
Qed.

Lemma lookup_union_match {A} (m1 m2 : gmap string A) l :
  (m1 ∪ m2) !! l = match m1 !! l with Some x => Some x | None => m2 !! l end.
Proof. rewrite lookup_union. by destruct (m1 !! l), (m2 !! l). Qed.

Lemma build_uploads_lookup_last (t : TargetDir) : forall l,
  build_uploads t !! l =
  UploadFile.source <$> last (filter (fun u => UploadFile.input_label u = l) (tree_uploads t)).
Proof.
  induction t as [nm sds ups rms ffs IH] using TargetDir_ind'. intros l. simpl.
  rewrite lookup_union_match, foldl_insert_lookup, filter_app, last_app.
  destruct (last (filter _ ups)) as [u|]; [done|].
  rewrite lookup_empty. cbv beta iota.
  match goal with
  | |- ?GO sds ∅ !! l = UploadFile.source <$> last (filter ?P (?GT sds)) =>
      enough (H : forall acc, GO sds acc !! l =
        match last (filter P (GT sds)) with
        | Some u => Some (UploadFile.source u)
        | None => acc !! l
        end) by (rewrite H; destruct (last _); [done|apply lookup_empty]);
      induction IH as [|d sds Hd _ IHs]; intros acc; simpl; [done|]
  end.
  rewrite IHs, filter_app, last_app.
  destruct (last (filter _ (_ sds))); [done|].
  rewrite lookup_union_match, (Hd l). by destruct (last _).
Qed.










Lemma create_dirs_names_gen (t : TargetDir) : forall folder path is_root,
  map last (fst (create_dirs t folder path is_root)) = map Some (subdir_names t).
Proof.
  induction t as [nm sds ups rms ffs IH] using TargetDir_ind'. intros folder path is_root. simpl.
  set (p := enter path is_root nm). clearbody p.
  match goal with
  | |- context [?GO sds p] =>
      assert (Hsub : forall p0, map last (fst (GO sds p0)) = map Some (subdir_names (mkTargetDir nm sds ups rms ffs)));
      [ simpl; clear -IH; induction IH as [|d sds Hd _ IHs]; intros p0; [done|]; simpl;
        specialize (Hd (folder ++ (p0 ++ [name d])) p0 false);
        destruct (create_dirs d (folder ++ (p0 ++ [name d])) p0 false) as [cr p'];
        specialize (IHs p');
        destruct (GO sds p') as [cr' p''];
        simpl in *; rewrite map_app, Hd, IHs, map_app;
        by rewrite (assoc_L (++)), last_snoc
      | specialize (Hsub p); simpl in Hsub; destruct (GO sds p) as [cr pf]; exact Hsub ]
  end.
Qed.

Lemma future_links_order (t : TargetDir) : forall path is_root,
  map snd (future_links t path is_root) = tree_from_future t.
Proof.
  induction t as [nm sds ups rms ffs IH] using TargetDir_ind'. intros path is_root. simpl.
  rewrite map_app, map_map. simpl. rewrite map_id. f_equal.
  induction IH as [|d sds Hd _ IHs]; simpl; [done|].
  by rewrite map_app, Hd, IHs.
Qed.

Lemma omap_all_some {A B} (f : A -> option B) (l : list A) :
  Forall (fun x => is_Some (f x)) l -> length (omap f l) = length l.
Proof.
  induction 1 as [|x l [y Hy] _ IH]; simpl; [done|]. rewrite Hy. simpl. by f_equal.
Qed.

(** X1: [build_uploads] maps exactly the input labels of the tree's
    uploads; for a label used more than once, the entry is made from
    the last upload with that label in the order subtrees first (in
    order), then the node's own uploads. *)
Theorem build_uploads_lookup (t : TargetDir) (l : string) :
  build_uploads t !! l =
  UploadFile.source <$> last (filter (fun u => UploadFile.input_label u = l) (tree_uploads t)).
Proof. apply build_uploads_lookup_last. Qed.




(** X4: [create_dirs] calls [folder.get_subfolder] once per non-root
    node, in preorder, and the folder it creates for a node ends with
    that node's name. *)
Theorem create_dirs_one_folder_per_subdir (t : TargetDir) (folder path : list string)
    (is_root : bool) :
  map last (fst (create_dirs t folder path is_root)) = map Some (subdir_names t).
Proof. apply create_dirs_names_gen. Qed.

(** X5: when the futures namespace holds every label the tree refers
    to, [iter_future_links] is exhausted without raising and yields one
    [ln -s] command per [from_future] entry of the tree, the entries
    taken in preorder (a node's own, then its subtrees); the
    [prepend_text] is these commands joined by newlines. *)
Theorem iter_future_links_all_present (fs : gmap string Future.t) (t : TargetDir) :
  (forall l, l ∈ referenced_labels t -> is_Some (fs !! l)) ->
  map snd (future_links_top t) = tree_from_future t /\
  iter_future_links_top fs t = (omap (link_command fs) (future_links_top t), Exhausted) /\
  length (fst (iter_future_links_top fs t)) = length (tree_from_future t) /\
  prepend_text fs t = Some (String.concat newline (fst (iter_future_links_top fs t))).
Proof.
  intros Hall.
  assert (Hpres : Forall (fun pf => is_Some (fs !! FuturePath.input_label (snd pf)))
                    (future_links_top t)).
  { apply Forall_forall. intros pf Hpf. apply Hall. unfold referenced_labels.
    by apply (list_elem_of_fmap_2 (fun pf => FuturePath.input_label (snd pf))). }
  assert (Hrun : iter_future_links_top fs t =
                 (omap (link_command fs) (future_links_top t), Exhausted)).
  { unfold iter_future_links_top. rewrite iter_future_links_flat.
    by apply links_run_present. }
  pose proof (future_links_order t path_empty true) as Hord.
  split; [exact Hord|]. split; [exact Hrun|]. split.
  - rewrite Hrun. simpl. rewrite omap_all_some.
    + unfold future_links_top. by rewrite <- Hord, length_map.
    + eapply Forall_impl; [exact Hpres|]. intros [p f] [fut Hf]. simpl in Hf.
      unfold link_command. simpl. rewrite Hf. by eexists.
  - unfold prepend_text. by rewrite Hrun.
Qed.

Lemma iter_future_links_all_present_witness :
  (forall l, l ∈ referenced_labels tree_two_links -> is_Some (futures_dep01 !! l)) /\
  map snd (future_links_top tree_two_links) = tree_from_future tree_two_links /\
  iter_future_links_top futures_dep01 tree_two_links =
    (omap (link_command futures_dep01) (future_links_top tree_two_links), Exhausted) /\
  length (fst (iter_future_links_top futures_dep01 tree_two_links)) =
    length (tree_from_future tree_two_links) /\
  prepend_text futures_dep01 tree_two_links =
    Some (String.concat newline (fst (iter_future_links_top futures_dep01 tree_two_links))).
Proof.
  assert (Hall : forall l, l ∈ referenced_labels tree_two_links -> is_Some (futures_dep01 !! l)).
  { intros l Hl. assert (E : referenced_labels tree_two_links = ["dep_0"; "dep_1"])
      by reflexivity.
    rewrite E in Hl. apply elem_of_cons in Hl as [->|Hl]; [by eexists|].
    apply list_elem_of_singleton in Hl as ->. by eexists. }
  split; [exact Hall|]. exact (iter_future_links_all_present futures_dep01 tree_two_links Hall).
Defined.

(** X6: for [poll_interval >= 1] and [timeout >= 0], the polling loop
    always ends in one of its four exits, the time slept
    ([poll_interval] per round) stays below [timeout + poll_interval],
    and a timeout is reported with a waited time in
    [[timeout, timeout + poll_interval)]. *)
Theorem wait_for_submitted_bounded (poll_interval timeout : Z)
    (has_job_id has_workdir : nat -> bool) (process_state_after : nat -> ProcessState.t) :
  1 <= poll_interval -> 0 <= timeout ->
  let '(o, k) := wait_for_submitted poll_interval timeout has_job_id has_workdir
                   process_state_after in
  o <> WaitOutOfFuel /\ Z.of_nat k * poll_interval < timeout + poll_interval /\
  (forall t, o = TimedOut t -> timeout <= t < timeout + poll_interval).
Proof.
  intros Hp Ht.
  pose proof (wait_loop_spec poll_interval timeout has_job_id has_workdir process_state_after
                Hp (Z.to_nat timeout) 0 ltac:(lia)) as Hs.
  unfold wait_for_submitted.
  destruct (wait_loop _ _ _ _ _ _ _ _) as [o k]. destruct Hs as (_ & Hpolls & Hrest).
  assert (Hk : Z.of_nat k * poll_interval < timeout + poll_interval).
  { destruct k as [|k']; [lia|].
    destruct (Hpolls k' ltac:(lia)) as [_ Hlt].
    rewrite Nat2Z.inj_succ, Z.mul_succ_l. lia. }
  split; [by destruct o|]. split; [exact Hk|].
  intros t ->. destruct Hrest as (_ & _ & -> & Hle). lia.
Qed.

Lemma wait_for_submitted_bounded_witness :
  1 <= 1 /\ 0 <= 30 /\
  let '(o, k) := wait_for_submitted 1 30 (fun k => Nat.leb 3 k) (fun k => Nat.leb 1 k)
                   (fun _ => ProcessState.RUNNING) in
  o <> WaitOutOfFuel /\ Z.of_nat k * 1 < 30 + 1 /\
  (forall t, o = TimedOut t -> 30 <= t < 30 + 1).
Proof.
  split; [lia|]. split; [lia|].
  exact (wait_for_submitted_bounded 1 30 (fun k => Nat.leb 3 k) (fun k => Nat.leb 1 k)
           (fun _ => ProcessState.RUNNING) ltac:(lia) ltac:(lia)).
Defined.

(* ================================================================= *)
(** * Cycles and the Kahn layering *)

(** A non-empty finite set of nodes in which every node has a
    predecessor inside the set contains a cycle. *)
Lemma walk_back_cycle (R : Z -> Z -> Prop) (S : list Z) (x0 : Z) :
  x0 ∈ S -> (forall x, x ∈ S -> exists y, y ∈ S /\ R y x) ->
  exists v, clos_trans Z R v v.
Proof.
  intros Hx0 Hpred.
  assert (Hgrow : forall n, (exists v, clos_trans Z R v v) \/
            exists h L, length L = n /\ h ∈ S /\ NoDup (h :: L) /\
              forall z, z ∈ L -> z ∈ S /\ clos_trans Z R h z).
  { induction n as [|n IH].
    - right. exists x0, []. split; [done|]. split; [done|].
      split; [apply NoDup_singleton|]. intros z Hz. inversion Hz.
    - destruct IH as [Hc|(h & L & Hlen & Hh & Hnd & HL)]; [by left|].
      destruct (Hpred h Hh) as (y & Hy & Ryh).
      destruct (decide (y = h)) as [->|Hyh]; [left; exists h; by apply t_step|].
      destruct (decide (y ∈ L)) as [HyL|HyL].
      + left. exists y. apply (t_trans _ _ _ h); [by apply t_step|]. by apply HL.
      + right. exists y, (h :: L). split; [simpl; lia|]. split; [done|].
        split.
        * apply NoDup_cons. split; [|done]. intros Hin.
          apply elem_of_cons in Hin as [?|?]; contradiction.
        * intros z Hz. apply elem_of_cons in Hz as [->|Hz]; [split; [done|by apply t_step]|].
          destruct (HL z Hz) as [HzS Hhz]. split; [done|].
          apply (t_trans _ _ _ h); [by apply t_step|done]. }
  destruct (Hgrow (length S)) as [Hc|(h & L & Hlen & Hh & Hnd & HL)]; [done|].
  exfalso. assert (Hle : (length (h :: L) <= length S)%nat).
  { apply NoDup_incl_length; [by apply NoDup_ListNoDup|].
    intros z Hz. apply list_elem_of_In. apply list_elem_of_In in Hz.
    apply elem_of_cons in Hz as [->|Hz]; [done|]. by apply HL. }
  simpl in Hle. lia.
Qed.

(** The [while] loop only reports [NetworkXUnfeasible] in a state
    whose [indegree_map] still holds nodes. *)
Lemma generations_loop_unfeasible (G : DiGraph) (es : list (Z * Z)) (Hwf : graph_wf G es)
    (fuel : nat) : forall P zero m,
  kahn_inv G es P zero m -> (length (g_node G) <= fuel + length P)%nat ->
  generations_loop G fuel m zero = Unfeasible ->
  exists P' m', kahn_inv G es P' [] m' /\ m' <> ∅.
Proof.
  induction fuel as [|f IH]; intros P zero m Hinv Hfuel Hu.
  - destruct zero as [|z zs]; simpl in Hu; [|discriminate].
    case_decide as Hm; [discriminate|]. by exists P, m.
  - destruct zero as [|z zs]; cbn -[process_generation] in Hu.
    + case_decide as Hm; [discriminate|]. by exists P, m.
    + destruct (kahn_process_generation G es Hwf (z :: zs) P [] m) as (m' & zero' & Hrun & Hinv').
      { by rewrite app_nil_r. }
      rewrite Hrun in Hu.
      apply (IH (P ++ z :: zs) zero' m' Hinv'); [rewrite length_app; simpl; lia|].
      destruct (generations_loop G f m' zero'); simpl in Hu; congruence.
Qed.

(** In such a state every node left in [indegree_map] has a
    predecessor that is also left, hence the graph has a cycle. *)
Lemma kahn_stuck_cycle (G : DiGraph) (es : list (Z * Z)) (Hwf : graph_wf G es)
    (P : list Z) (m : gmap Z Z) :
  kahn_inv G es P [] m -> m <> ∅ -> exists v, clos_trans Z (edge_rel es) v v.
Proof.
  intros (I1 & I2 & _) Hne.
  destruct Hwf as (_ & Hends & _ & _ & _ & Hpred).
  destruct (map_choose m Hne) as (i & k & Hi).
  assert (HS : forall y, y ∈ (map_to_list m).*1 <-> exists k, m !! y = Some k).
  { intros y. split.
    - intros Hy. apply list_elem_of_fmap in Hy as ([y' k'] & -> & Hin).
      apply elem_of_map_to_list in Hin. by exists k'.
    - intros [k' Hk']. apply list_elem_of_fmap. exists (y, k'). split; [done|].
      by apply elem_of_map_to_list. }
  apply (walk_back_cycle (edge_rel es) ((map_to_list m).*1) i); [apply HS; by exists k|].
  intros x Hx. apply HS in Hx as [kx Hkx].
  destruct (I1 x kx Hkx) as (_ & _ & Hpos). unfold cnt in Hpos.
  destruct (filter (fun u => u ∉ P) (predecessors G x)) as [|u rest] eqn:E;
    [simpl in Hpos; lia|].
  assert (Hu : u ∈ filter (fun u => u ∉ P) (predecessors G x)) by (rewrite E; left).
  apply list_elem_of_filter in Hu as [HuP Hu].
  apply (proj2 (Hpred x)) in Hu.
  exists u. split; [|exact Hu]. apply HS.
  destruct (m !! u) as [ku|] eqn:Hmu; [by exists ku|].
  exfalso. apply HuP. rewrite <- (app_nil_r P). apply I2; [apply (Hends u x Hu)|done].
Qed.

Lemma is_directed_acyclic_graph_cases (es : list (Z * Z)) :
  (is_directed_acyclic_graph (DiGraph_of es) = Some true /\
     forall v, ~ clos_trans Z (edge_rel es) v v) \/
  (is_directed_acyclic_graph (DiGraph_of es) = Some false /\
     exists v, clos_trans Z (edge_rel es) v v).
Proof.
  destruct (topological_generations_spec es) as [Hu|(gens & Hg & _)].
  - right. unfold is_directed_acyclic_graph. rewrite Hu. split; [done|].
    unfold topological_generations in Hu.
    apply (generations_loop_unfeasible _ _ (DiGraph_of_wf es) _ [] _ _ (kahn_inv_initial es))
      in Hu as (P' & m' & Hinv & Hne); [|simpl; lia].
    exact (kahn_stuck_cycle _ _ (DiGraph_of_wf es) P' m' Hinv Hne).
  - left. unfold is_directed_acyclic_graph. rewrite Hg. split; [done|].
    intros v Hv. pose proof (is_directed_acyclic_graph_cycle es v Hv) as H.
    unfold is_directed_acyclic_graph in H. rewrite Hg in H. discriminate.
Qed.

(* ================================================================= *)
(** * Submission order and outcomes of the workchain *)

Lemma check_deps_job_failed (ok : Z -> bool) (deps ts : list Z) :
  check_deps ok deps ts = Some JOB_FAILED -> exists d, d ∈ deps /\ (d ∉ ts) /\ ok d = false.
Proof.
  induction deps as [|d0 ds IH]; simpl; [discriminate|].
  case_bool_decide as Hts; [discriminate|]. destruct (ok d0) eqn:Hok.
  - intros H. destruct (IH H) as (d & Hd & Hdt & Hdok). exists d. split; [by right|done].
  - intros _. exists d0. split; [left|done].
Qed.

Lemma submit_front_prefix (ok : Z -> bool) (bld : Z -> bool) (dag : DiGraph) (g : Graph) (gen : list Z) :
  forall na ts new e, submit_front ok bld dag g gen na ts = (new, e) ->
  exists pre post, gen = pre ++ post /\ new = ts ++ pre /\ (e = None -> post = []).
Proof.
  induction gen as [|x rest IH]; simpl; intros na ts new e Hrun.
  - injection Hrun as <- _. exists [], []. split; [done|]. by rewrite app_nil_r.
  - destruct (forallb _ _); simpl in Hrun.
    2:{ injection Hrun as <- <-. exists [], (x :: rest). rewrite app_nil_r. done. }
    destruct (check_deps ok (predecessors dag x) ts) as [e'|].
    { injection Hrun as <- <-. exists [], (x :: rest). rewrite app_nil_r. done. }
    destruct (py_index_ok _ x); simpl in Hrun.
    2:{ injection Hrun as <- <-. exists [], (x :: rest). rewrite app_nil_r. done. }
    destruct (bld x); simpl in Hrun.
    2:{ injection Hrun as <- <-. exists [], (x :: rest). rewrite app_nil_r. done. }
    destruct (IH na (ts ++ [x]) new e Hrun) as (pre & post & -> & -> & Hpost).
    exists (x :: pre), post. split; [done|]. split; [by rewrite <- (assoc_L (++))|done].
Qed.

Lemma submit_generations_prefix (ok : Z -> bool) (bld : Z -> bool) (dag : DiGraph) (g : Graph)
    (gens : list (list Z)) :
  forall na na' e, submit_generations ok bld dag g gens na = (na', e) ->
  exists pre post, concat gens = pre ++ post /\ na' = na ++ pre.
Proof.
  induction gens as [|gen rest IH]; simpl; intros na na' e Hrun.
  - injection Hrun as <- _. exists [], []. by rewrite !app_nil_r.
  - destruct (submit_front ok bld dag g gen na []) as [new r0] eqn:Hf.
    destruct (submit_front_prefix ok bld dag g gen na [] new r0 Hf) as (pre0 & post0 & -> & Hnew & Hpost).
    simpl in Hnew. subst new. destruct r0 as [e0|].
    + injection Hrun as <- _. exists pre0, (post0 ++ concat rest).
      by rewrite (assoc_L (++)).
    + rewrite (Hpost eq_refl), app_nil_r. destruct (IH _ _ _ Hrun) as (pre1 & post1 & -> & ->).
      exists (pre0 ++ pre1), post1. by rewrite !(assoc_L (++)).
Qed.

Lemma order_snoc (R : Z -> Z -> Prop) (l : list Z) (x : Z) :
  (forall pre y post, l = pre ++ y :: post -> forall d, R d y -> d ∈ pre) ->
  (forall d, R d x -> d ∈ l) ->
  forall pre y post, l ++ [x] = pre ++ y :: post -> forall d, R d y -> d ∈ pre.
Proof.
  intros Hl Hx pre y post E d Hd.
  destruct post as [|z post' _] using rev_ind.
  - apply app_inj_tail in E as [-> ->]. by apply Hx.
  - rewrite app_comm_cons, (assoc_L (++)) in E. apply app_inj_tail in E as [E _].
    by apply (Hl pre y post').
Qed.

Lemma submit_front_order (ok : Z -> bool) (bld : Z -> bool) (dag : DiGraph) (g : Graph) (gen : list Z) :
  forall na ts new e,
  (forall pre y post, na ++ ts = pre ++ y :: post ->
     forall d, d ∈ predecessors dag y -> d ∈ pre) ->
  submit_front ok bld dag g gen na ts = (new, e) ->
  forall pre y post, na ++ new = pre ++ y :: post ->
    forall d, d ∈ predecessors dag y -> d ∈ pre.
Proof.
  induction gen as [|x rest IH]; simpl; intros na ts new e Hord Hrun.
  - by injection Hrun as <- _.
  - destruct (forallb _ _) eqn:Hall; simpl in Hrun; [|by injection Hrun as <- _].
    destruct (check_deps ok (predecessors dag x) ts); [by injection Hrun as <- _|].
    destruct (py_index_ok _ x); simpl in Hrun; [|by injection Hrun as <- _].
    destruct (bld x); simpl in Hrun; [|by injection Hrun as <- _].
    apply (IH na (ts ++ [x]) new e); [|done].
    rewrite (assoc_L (++)). apply order_snoc; [done|].
    intros d Hd. apply forallb_forall with (x := d) in Hall; [|by apply list_elem_of_In].
    by apply bool_decide_eq_true in Hall.
Qed.

Lemma submit_generations_order (ok : Z -> bool) (bld : Z -> bool) (dag : DiGraph) (g : Graph)
    (gens : list (list Z)) :
  forall na na' e,
  (forall pre y post, na = pre ++ y :: post ->
     forall d, d ∈ predecessors dag y -> d ∈ pre) ->
  submit_generations ok bld dag g gens na = (na', e) ->
  forall pre y post, na' = pre ++ y :: post ->
    forall d, d ∈ predecessors dag y -> d ∈ pre.
Proof.
  induction gens as [|gen rest IH]; simpl; intros na na' e Hord Hrun.
  - by injection Hrun as <- _.
  - destruct (submit_front ok bld dag g gen na []) as [new r0] eqn:Hf.
    assert (Hord' : forall pre y post, na ++ new = pre ++ y :: post ->
              forall d, d ∈ predecessors dag y -> d ∈ pre).
    { apply (submit_front_order ok bld dag g gen na [] new r0); [|done].
      by rewrite app_nil_r. }
    destruct r0 as [e0|]; [by injection Hrun as <- _|].
    by apply (IH (na ++ new) na' e).
Qed.

(** With the layering of an acyclic graph as the front, what
    [start_and_submit] runs. *)
Lemma start_and_submit_acyclic (ok : Z -> bool) (bld : Z -> bool) (g : Graph) :
  (forall v, ~ clos_trans Z (edge_rel (edges g)) v v) ->
  exists gens,
    topological_generations (DiGraph_of (edges g)) = Generations gens /\
    kahn_inv (DiGraph_of (edges g)) (edges g) (concat gens) [] ∅ /\
    gens_ok (edges g) [] gens /\
    start_and_submit ok bld g = submit_generations ok bld (DiGraph_of (edges g)) g gens [].
Proof.
  intros Hac.
  destruct (is_directed_acyclic_graph_cases (edges g)) as [[Hdag _]|[_ (v & Hv)]];
    [|by destruct (Hac v)].
  destruct (topological_generations_spec (edges g)) as [Hu|(gens & Hg & Hinv & Hgens)].
  { unfold is_directed_acyclic_graph in Hdag. by rewrite Hu in Hdag. }
  exists gens. split; [done|]. split; [done|]. split; [done|].
  unfold start_and_submit. by rewrite Hdag, Hg.
Qed.

Lemma run_graph_submitted_nodup (ok : Z -> bool) (js : Z -> JobOutcome) (bld : Z -> bool) (g : Graph) :
  NoDup (submitted (run_graph ok js bld g)).
Proof.
  destruct (run_graph_submitted ok js bld g) as [r Hs].
  revert Hs. generalize (submitted (run_graph ok js bld g)). intros na Hs.
  destruct (is_directed_acyclic_graph_cases (edges g)) as [[Hdag Hac]|[Hdag _]].
  - destruct (start_and_submit_acyclic ok bld g Hac) as (gens & _ & Hinv & _ & Hrun).
    rewrite Hrun in Hs.
    destruct (submit_generations_prefix _ bld _ _ _ _ _ _ Hs) as (pre & post & Hcat & ->).
    destruct Hinv as (_ & _ & _ & I4 & _). rewrite app_nil_r, Hcat in I4.
    apply NoDup_app in I4 as (Hpre & _). done.
  - unfold start_and_submit in Hs. rewrite Hdag in Hs. injection Hs as <- _. constructor.
Qed.

Lemma run_graph_submitted_order (ok : Z -> bool) (js : Z -> JobOutcome) (bld : Z -> bool) (g : Graph) :
  forall pre x post d, submitted (run_graph ok js bld g) = pre ++ x :: post ->
  (d, x) ∈ edges g -> d ∈ pre.
Proof.
  destruct (run_graph_submitted ok js bld g) as [r Hs].
  revert Hs. generalize (submitted (run_graph ok js bld g)). intros na Hs.
  destruct (DiGraph_of_wf (edges g)) as (_ & _ & _ & _ & _ & Hpred).
  intros pre x post d Hna Hd. apply (proj2 (Hpred x)) in Hd.
  unfold start_and_submit in Hs.
  destruct (is_directed_acyclic_graph _) as [[|]|];
    [|injection Hs as <- _; by destruct pre|injection Hs as <- _; by destruct pre].
  destruct (topological_generations _) as [front| | |];
    try (injection Hs as <- _; by destruct pre).
  refine (submit_generations_order ok bld _ g front [] na r _ Hs pre x post Hna d Hd).
  intros pre' y post' E. by destruct pre'.
Qed.

Lemma submit_front_job_failed (ok : Z -> bool) (bld : Z -> bool) (dag : DiGraph) (g : Graph) (gen : list Z) :
  forall na ts new, submit_front ok bld dag g gen na ts = (new, Some JOB_FAILED) ->
  exists x d, d ∈ predecessors dag x /\ d ∈ na /\ ok d = false.
Proof.
  induction gen as [|x rest IH]; simpl; intros na ts new Hrun; [discriminate|].
  destruct (forallb _ _) eqn:Hall; simpl in Hrun; [|discriminate].
  destruct (check_deps ok (predecessors dag x) ts) as [e|] eqn:Hchk.
  - injection Hrun as _ ->.
    destruct (check_deps_job_failed ok _ ts Hchk) as (d & Hd & Hdt & Hdok).
    exists x, d. split; [done|]. split; [|done].
    apply forallb_forall with (x := d) in Hall; [|by apply list_elem_of_In].
    apply bool_decide_eq_true, elem_of_app in Hall as [?|?]; done.
  - destruct (py_index_ok _ x); simpl in Hrun; [|discriminate].
    destruct (bld x); simpl in Hrun; [|discriminate].
    by apply (IH na (ts ++ [x]) new).
Qed.

Lemma submit_generations_job_failed (ok : Z -> bool) (bld : Z -> bool) (dag : DiGraph) (g : Graph)
    (gens : list (list Z)) :
  forall na na', submit_generations ok bld dag g gens na = (na', Some JOB_FAILED) ->
  exists x d, d ∈ predecessors dag x /\ d ∈ na' /\ ok d = false.
Proof.
  induction gens as [|gen rest IH]; simpl; intros na na' Hrun; [discriminate|].
  destruct (submit_front ok bld dag g gen na []) as [new r0] eqn:Hf.
  destruct r0 as [e0|].
  - injection Hrun as <- ->.
    destruct (submit_front_job_failed ok bld dag g gen na [] new Hf) as (x & d & Hd & Hdna & Hok).
    exists x, d. split; [done|]. split; [|done]. apply elem_of_app. by left.
  - destruct (IH _ _ Hrun) as (x & d & Hd & Hdna & Hok). by exists x, d.
Qed.



Lemma check_deps_not_dag (ok : Z -> bool) (deps ts : list Z) :
  check_deps ok deps ts <> Some NOT_A_DAG.
Proof.
  induction deps as [|d ds IH]; simpl; [done|].
  case_bool_decide; [done|]. by destruct (ok d).
Qed.

Lemma submit_generations_not_dag (ok : Z -> bool) (bld : Z -> bool) (dag : DiGraph) (g : Graph)
    (gens : list (list Z)) :
  forall na na' e, submit_generations ok bld dag g gens na = (na', e) -> e <> Some NOT_A_DAG.
Proof.
  assert (Hf : forall gen na ts new e, submit_front ok bld dag g gen na ts = (new, e) ->
                 e <> Some NOT_A_DAG).
  { induction gen as [|x rest IH]; simpl; intros na ts new e Hrun.
    - by injection Hrun as _ <-.
    - destruct (forallb _ _); simpl in Hrun; [|by injection Hrun as _ <-].
      destruct (check_deps ok (predecessors dag x) ts) as [e'|] eqn:Hc.
      + injection Hrun as _ <-. rewrite <- Hc. apply check_deps_not_dag.
      + destruct (py_index_ok _ x); simpl in Hrun; [|by injection Hrun as _ <-].
        destruct (bld x); simpl in Hrun; [|by injection Hrun as _ <-].
        by apply (IH na (ts ++ [x]) new). }
  induction gens as [|gen rest IH]; simpl; intros na na' e Hrun.
  - by injection Hrun as _ <-.
  - destruct (submit_front ok bld dag g gen na []) as [new r0] eqn:Hfr.
    destruct r0 as [e0|]; [|by apply (IH _ _ _ Hrun)].
    injection Hrun as _ <-. by apply (Hf gen na [] new).
Qed.

Lemma wait_and_finalize_exit (ok : Z -> bool) (js : Z -> JobOutcome) (na : list Z) :
  snd (wait_and_finalize ok js na) = FINISHED_OK \/ snd (wait_and_finalize ok js na) = EXCEPTED.
Proof.
  unfold wait_and_finalize. destruct na; [by right|]. destruct (wait_all _ _ _); simpl; auto.
Qed.

(** X7: the workchain submits every node at most once, and a node only
    after all its predecessors in [graph.edges], each of whose
    advance-submissions finished ok. *)
Theorem run_graph_submission_order (ok : Z -> bool) (js : Z -> JobOutcome) (bld : Z -> bool) (g : Graph) :
  NoDup (submitted (run_graph ok js bld g)) /\
  forall pre x post d, submitted (run_graph ok js bld g) = pre ++ x :: post ->
    (d, x) ∈ edges g -> d ∈ pre /\ ok d = true.
Proof.
  split; [apply run_graph_submitted_nodup|].
  intros pre x post d Hna Hd. split; [exact (run_graph_submitted_order ok js bld g pre x post d Hna Hd)|].
  apply (run_graph_submitted_safe ok js bld g x d); [|done].
  rewrite Hna. apply elem_of_app. right. left.
Qed.

(** X8: [nx.is_directed_acyclic_graph(nx.DiGraph(edges))] never raises:
    it is [True] exactly when the edges have no cycle and [False]
    exactly when they have one. *)
Theorem is_directed_acyclic_graph_iff (es : list (Z * Z)) :
  (is_directed_acyclic_graph (DiGraph_of es) = Some true <->
     forall v, ~ clos_trans Z (edge_rel es) v v) /\
  (is_directed_acyclic_graph (DiGraph_of es) = Some false <->
     exists v, clos_trans Z (edge_rel es) v v).
Proof.
  destruct (is_directed_acyclic_graph_cases es) as [[-> Hac]|[-> (v & Hv)]].
  - split; [split; [intros _; exact Hac|done]|].
    split; [discriminate|]. intros (v & Hv). by destruct (Hac v).
  - split; [split; [discriminate|intros Hac; by destruct (Hac v)]|].
    split; [intros _; by exists v|done].
Qed.



(** X10: a graph without edges submits nothing: [nx.DiGraph([])] has no
    node, the [while] loop never runs [submit_front], and the last
    [not_reached_end] reads the never-set [ctx.node_async] and raises,
    whatever [graph.nodes] holds. *)
Theorem run_graph_no_edges (ok : Z -> bool) (js : Z -> JobOutcome) (bld : Z -> bool) (g : Graph) :
  edges g = [] -> run_graph ok js bld g = mkRunResult [] [] EXCEPTED.
Proof. intros He. unfold run_graph, start_and_submit. rewrite He. reflexivity. Qed.

Lemma run_graph_no_edges_witness :
  edges (mkGraph [job0] []) = [] /\
  run_graph (fun _ => true) A_failed (fun _ => true) (mkGraph [job0] []) = mkRunResult [] [] EXCEPTED.
Proof.
  assert (He : edges (mkGraph [job0] []) = []) by reflexivity.
  split; [exact He|]. exact (run_graph_no_edges (fun _ => true) A_failed (fun _ => true) (mkGraph [job0] []) He).
Defined.

(** X11: the workchain exits [JOB_FAILED] only when a submitted node's
    advance-submission did not finish ok and one of its successors was
    therefore not submitted. *)
Theorem run_graph_job_failed_cause (ok : Z -> bool) (js : Z -> JobOutcome) (bld : Z -> bool) (g : Graph) :
  exit_status (run_graph ok js bld g) = JOB_FAILED ->
  exists d x, d ∈ submitted (run_graph ok js bld g) /\ ok d = false /\
    (d, x) ∈ edges g /\ x ∉ submitted (run_graph ok js bld g).
Proof.
  intros Hjf.
  destruct (start_and_submit ok bld g) as [na r] eqn:Hs.
  assert (Hna : submitted (run_graph ok js bld g) = na).
  { unfold run_graph. rewrite Hs. destruct r; [done|]. by destruct (wait_and_finalize _ _ _). }
  assert (Hr : r = Some JOB_FAILED).
  { unfold run_graph in Hjf. rewrite Hs in Hjf. destruct r as [e|]; simpl in Hjf; [by subst|].
    pose proof (wait_and_finalize_exit ok js na) as Hw.
    destruct (wait_and_finalize ok js na) as [all e]. simpl in *.
    destruct Hw; congruence. }
  subst r. unfold start_and_submit in Hs.
  destruct (is_directed_acyclic_graph _) as [[|]|]; try discriminate.
  destruct (topological_generations _) as [front| | |]; try discriminate.
  destruct (submit_generations_job_failed ok bld _ g front [] na Hs) as (x & d & Hd & Hdna & Hdok).
  destruct (DiGraph_of_wf (edges g)) as (_ & _ & _ & _ & _ & Hpred).
  apply (proj2 (Hpred x)) in Hd.
  exists d, x. rewrite Hna. split; [done|]. split; [done|]. split; [done|].
  intros Hx. rewrite <- Hna in Hx.
  destruct (run_graph_submitted_safe ok js bld g x d Hx Hd) as [_ Hdt]. congruence.
Qed.

Lemma run_graph_job_failed_cause_witness :
  exit_status (run_graph (fun n => negb (bool_decide (n = 0))) A_failed (fun _ => true) graph_AB) = JOB_FAILED /\
  exists d x, d ∈ submitted (run_graph (fun n => negb (bool_decide (n = 0))) A_failed (fun _ => true) graph_AB) /\
    (fun n => negb (bool_decide (n = 0))) d = false /\ (d, x) ∈ edges graph_AB /\
    x ∉ submitted (run_graph (fun n => negb (bool_decide (n = 0))) A_failed (fun _ => true) graph_AB).
Proof.
  assert (Hjf : exit_status (run_graph (fun n => negb (bool_decide (n = 0))) A_failed (fun _ => true) graph_AB)
                = JOB_FAILED) by reflexivity.
  split; [exact Hjf|].
  exact (run_graph_job_failed_cause (fun n => negb (bool_decide (n = 0))) A_failed (fun _ => true) graph_AB Hjf).
Defined.

(** X12: the workchain exits [NOT_A_DAG] exactly when the edges have a
    cycle. *)
Theorem run_graph_not_a_dag_iff (ok : Z -> bool) (js : Z -> JobOutcome) (bld : Z -> bool) (g : Graph) :
  exit_status (run_graph ok js bld g) = NOT_A_DAG <->
  exists v, clos_trans Z (edge_rel (edges g)) v v.
Proof.
  destruct (is_directed_acyclic_graph_cases (edges g)) as [[Hdag Hac]|[Hdag Hc]].
  - split; [|intros (v & Hv); by destruct (Hac v)]. intros Hnd. exfalso.
    unfold run_graph, start_and_submit in Hnd. rewrite Hdag in Hnd.
    destruct (topological_generations _) as [front| | |]; simpl in Hnd; try discriminate.
    destruct (submit_generations ok bld _ g front []) as [na' e] eqn:Hsub.
    destruct e as [e|].
    + simpl in Hnd. subst e. by apply (submit_generations_not_dag ok bld _ g front [] na' _ Hsub).
    + pose proof (wait_and_finalize_exit ok js na') as Hw.
      destruct (wait_and_finalize ok js na') as [all e']. simpl in *. destruct Hw; congruence.
  - split; [intros _; done|]. intros _.
    unfold run_graph, start_and_submit. by rewrite Hdag.
Qed.

(* ================================================================= *)
(** * Staging trees of depth one *)

Lemma upload_triplets_paths (uploaded : gmap string string) path ups l :
  upload_triplets uploaded path ups = Some l ->
  map UploadTriplet.tgt_path l = map (fun f => join_slash (path ++ [UploadFile.tgt_name f])) ups.
Proof.
  revert l. induction ups as [|u ups IH]; simpl; intros l H; [by injection H as <-|].
  destruct (uploaded !! _); [|discriminate].
  destruct (upload_triplets uploaded path ups) as [r|]; [|discriminate].
  injection H as <-. simpl. by rewrite (IH r eq_refl).
Qed.

Lemma create_triplets_flat_gen (uploaded : gmap string string) (cu : string)
    nm sds ups rms ffs :
  (forall d, d ∈ sds -> subdirs d = []) ->
  upload_target_paths (create_triplets_top uploaded cu (mkTargetDir nm sds ups rms ffs)) =
  (fun _ => spec_upload_target_paths (mkTargetDir nm sds ups rms ffs) [] true)
    <$> create_triplets_top uploaded cu (mkTargetDir nm sds ups rms ffs).
Proof.
  intros Hflat. unfold create_triplets_top, upload_target_paths. simpl.
  match goal with
  | |- context [?GO sds [] ([], [], [])] =>
    match goal with
    | |- context [?GS sds ++ map _ ups] =>
      assert (Hgo : forall ds acc, (forall d, d ∈ ds -> subdirs d = []) ->
        match GO ds [] acc with
        | None => True
        | Some ((lc, _, _), p) =>
            p = [] /\ map UploadTriplet.tgt_path lc =
                      map UploadTriplet.tgt_path (fst (fst acc)) ++ GS ds
        end);
      [ clear; induction ds as [|d ds IH]; intros acc Hfl;
        [ destruct acc as [[alc arc] arl]; simpl; split; [done|]; by rewrite app_nil_r
        | destruct d as [dn dsds dups drms dffs];
          assert (Hd : dsds = []) by (apply (Hfl _ (list_elem_of_here _ _)));
          subst dsds; simpl;
          destruct (upload_triplets uploaded [dn] dups) as [u|] eqn:Hu; simpl; [|done];
          destruct acc as [[alc arc] arl]; simpl;
          specialize (IH (alc ++ u, arc ++ map snd (filter (fun i => fst i = true)
                                                    (remote_triplets cu [dn] drms)),
                          arl ++ map snd (filter (fun i => fst i = false)
                                            (remote_triplets cu [dn] drms))));
          destruct (GO ds [] _) as [[[[lc rc] rl] p]|]; [|done];
          destruct IH as [-> Hmap]; [intros d' Hd'; apply Hfl; by right|];
          split; [done|]; rewrite Hmap; simpl;
          rewrite map_app, (upload_triplets_paths _ _ _ _ Hu), (assoc_L (++)); done ]
      | specialize (Hgo sds ([], [], []) Hflat);
        destruct (GO sds [] ([], [], [])) as [[[[lc rc] rl] p]|]; simpl; [|done];
        destruct Hgo as [-> Hmap];
        destruct (upload_triplets uploaded [] ups) as [u|] eqn:Hu; simpl; [|done];
        rewrite map_app, Hmap, (upload_triplets_paths _ _ _ _ Hu); done ]
    end
  end.
Qed.

Lemma create_dirs_flat_gen nm sds ups rms ffs :
  (forall d, d ∈ sds -> subdirs d = []) ->
  create_dirs_top (mkTargetDir nm sds ups rms ffs) =
  spec_dir_paths (mkTargetDir nm sds ups rms ffs) [] true.
Proof.
  intros Hflat. unfold create_dirs_top. simpl.
  induction sds as [|d sds IH]; [done|].
  destruct d as [dn dsds dups drms dffs].
  assert (Hd : dsds = []) by (apply (Hflat _ (list_elem_of_here _ _))). subst dsds.
  simpl in *. rewrite <- IH; [|intros d' Hd'; apply Hflat; by right].
  match goal with |- context [?GO sds []] => destruct (GO sds []) end. done.
Qed.

Lemma spec_dir_paths_flat nm sds ups rms ffs :
  (forall d, d ∈ sds -> subdirs d = []) ->
  spec_dir_paths (mkTargetDir nm sds ups rms ffs) [] true = map name sds.
Proof.
  intros Hflat. simpl. induction sds as [|d sds IH]; [done|].
  destruct d as [dn dsds dups drms dffs].
  assert (Hd : dsds = []) by (apply (Hflat _ (list_elem_of_here _ _))). subst dsds.
  simpl. f_equal. apply IH. intros d' Hd'. apply Hflat. by right.
Qed.

Lemma spec_upload_target_paths_flat nm sds ups rms ffs :
  (forall d, d ∈ sds -> subdirs d = []) ->
  spec_upload_target_paths (mkTargetDir nm sds ups rms ffs) [] true =
  concat (map (fun d => map (fun f => String.append (name d)
                                   (String.append "/" (UploadFile.tgt_name f)))
                           (upload d)) sds)
  ++ map UploadFile.tgt_name ups.
Proof.
  intros Hflat. simpl. f_equal.
  induction sds as [|d sds IH]; [done|].
  destruct d as [dn dsds dups drms dffs].
  assert (Hd : dsds = []) by (apply (Hflat _ (list_elem_of_here _ _))). subst dsds.
  cbn. rewrite IH; [done|]. intros d' Hd'. apply Hflat. by right.
Qed.

(** X13: in a tree of depth at most one (no child of the root has
    subdirectories), [create_dirs] creates exactly one folder per child of
    the root, named after it, in order; and every local-copy triplet of
    [create_triplets] targets ["<child>/<tgt_name>"] for the child's
    uploads, then the bare [tgt_name] for the root's own uploads. *)
Theorem staging_flat_tree_paths (uploaded : gmap string string) (cu : string)
    nm sds ups rms ffs :
  Forall (fun d => subdirs d = []) sds ->
  create_dirs_top (mkTargetDir nm sds ups rms ffs) = map name sds /\
  forall lc rc rl,
    create_triplets_top uploaded cu (mkTargetDir nm sds ups rms ffs) = Some (lc, rc, rl) ->
    map UploadTriplet.tgt_path lc =
    concat (map (fun d => map (fun f => String.append (name d)
                                     (String.append "/" (UploadFile.tgt_name f)))
                             (upload d)) sds)
    ++ map UploadFile.tgt_name ups :> list string.
Proof.
  intros Hf. rewrite Forall_forall in Hf. split.
  - rewrite (create_dirs_flat_gen nm sds ups rms ffs Hf). by apply spec_dir_paths_flat.
  - intros lc rc rl Hc.
    pose proof (create_triplets_flat_gen uploaded cu nm sds ups rms ffs Hf) as E.
    rewrite Hc in E. simpl in E. injection E as E.
    rewrite E. by apply (spec_upload_target_paths_flat nm sds ups rms ffs).
Qed.

Lemma staging_flat_tree_paths_witness :
  Forall (fun d => subdirs d = []) (subdirs tree_flat) /\
  create_dirs_top tree_flat = ["a"; "b"]%string /\
  forall lc rc rl,
    create_triplets_top uploaded_x "C" tree_flat = Some (lc, rc, rl) ->
    map UploadTriplet.tgt_path lc = ["a/f"; "g"]%string :> list string.
Proof.
  assert (Hf : Forall (fun d => subdirs d = []) (subdirs tree_flat))
    by (simpl; repeat constructor).
  split; [exact Hf|].
  exact (staging_flat_tree_paths uploaded_x "C" "root" (subdirs tree_flat)
           (upload tree_flat) [] [] Hf).
Defined.
